(** * VarInt (LEB128) decoders of the blog post [varint_decode.md]

    A shallow embedding of the TypeScript decoders printed in
    [src/pages/blog/varint_decode.md]: the BigInt reference [bigintDecode]
    and the four two-lane decoders [jsDecodeV1] .. [jsDecodeV4].

    JavaScript numbers that pass through bitwise operators are modelled as
    [Z] with the 32-bit wrap-around written out ([ToInt32], [ToUint32]);
    BigInt values are plain [Z]; a [Uint8Array] is a [list byte]; the
    8-byte scratch [ArrayBuffer] is a record of its two 32-bit lanes, read
    as one 64-bit value in little-endian lane order. *)

From Stdlib Require Import ZArith String List Bool Lia.
From Stdlib.Strings Require Import Byte.
Import ListNotations.
Local Open Scope Z_scope.

(** ** JavaScript 32-bit integer operators *)

Module JS.

Definition ToUint32 (x : Z) : Z := x mod 2 ^ 32.

Definition ToInt32 (x : Z) : Z :=
  let m := x mod 2 ^ 32 in
  if m <? 2 ^ 31 then m else m - 2 ^ 32.

(** [a & b] *)
Definition band (a b : Z) : Z := ToInt32 (Z.land (ToInt32 a) (ToInt32 b)).

(** [a | b] *)
Definition bor (a b : Z) : Z := ToInt32 (Z.lor (ToInt32 a) (ToInt32 b)).

(** [a << n]: the shift count is taken modulo 32. *)
Definition shl (a n : Z) : Z :=
  ToInt32 (Z.shiftl (ToInt32 a) (Z.land (ToUint32 n) 31)).

(** [a >>> n]: unsigned shift, count taken modulo 32. *)
Definition shru (a n : Z) : Z :=
  Z.shiftr (ToUint32 a) (Z.land (ToUint32 n) 31).

(** [Number(b)] for a boolean [b]. *)
Definition Number (b : bool) : Z := if b then 1 else 0.

End JS.

(** ** Typed arrays *)

(** [input[i]] on a [Uint8Array]: [None] stands for [undefined]. *)
Definition element (input : list byte) (i : nat) : option byte :=
  nth_error input i.

Definition u8 (b : byte) : Z := Z.of_N (Byte.to_N b).

(** A number-or-undefined operand as the bitwise operators see it:
    [undefined] converts to [NaN], which [ToInt32] maps to 0. *)
Definition operand (v : option byte) : Z :=
  match v with
  | Some b => u8 b
  | None => 0
  end.

(** The scratch buffer [AB] through its [Uint32Array] view. *)
Record Views : Type := mkViews { lane0 : Z; lane1 : Z }.

(** [U32_VIEW[k] = v]; a store outside the array is dropped. *)
Definition U32_set (k : Z) (v : Z) (ab : Views) : Views :=
  if k =? 0 then mkViews (JS.ToUint32 v) (lane1 ab)
  else if k =? 1 then mkViews (lane0 ab) (JS.ToUint32 v)
  else ab.

(** [U64_VIEW[0] = v] *)
Definition U64_set (v : Z) (ab : Views) : Views :=
  mkViews (v mod 2 ^ 32) ((v / 2 ^ 32) mod 2 ^ 32).

(** [U64_VIEW[0]] *)
Definition U64_get (ab : Views) : Z := lane0 ab + 2 ^ 32 * lane1 ab.

(** [new ArrayBuffer(8)] *)
Definition fresh : Views := mkViews 0 0.

(** ** Results *)

Inductive outcome (A : Type) : Type :=
| Returned (a : A)
| Thrown (msg : string).
Arguments Returned {A} a.
Arguments Thrown {A} msg.

(** What one pass through a loop body does. *)
Inductive step : Type :=
| Next (intermediate position : Z) (ab : Views)
| Break (ab : Views)
| Throw (msg : string) (ab : Views).

(** What the whole [for] statement does. *)
Inductive completion : Type :=
| Finished (ab : Views)
| Threw (msg : string) (ab : Views).

(** ** The accumulator step *)

(** Lines 210-224 of [jsDecodeV1] (the same text in V2 and V3). *)
Definition packerV3 (byte : Z) (intermediate position : Z) (ab : Views)
  : Z * Z * Views :=
  let intermediate := JS.bor intermediate (JS.shl (JS.band byte 0x7F) position) in
  if position =? 28 then
    let ab := U32_set 0 intermediate ab in
    let intermediate := JS.band (JS.shru byte 3) 0x07 in
    let position := 3 in
    (intermediate, position, ab)
  else
    let position := position + 7 in
    (intermediate, position, ab).

(** Lines 468-481 of [jsDecodeV4]. *)
Definition packerV4 (byte : Z) (intermediate position : Z) (ab : Views)
  : Z * Z * Views :=
  let intermediate := JS.bor intermediate (JS.shl (JS.band byte 0x7F) position) in
  let '(intermediate, position, ab) :=
    if position =? 28 then
      let ab := U32_set 0 intermediate ab in
      let intermediate := JS.band (JS.shru byte 3) 0x07 in
      let position := -4 in
      (intermediate, position, ab)
    else (intermediate, position, ab) in
  let position := position + 7 in
  (intermediate, position, ab).

(** ** The loop *)

Section Decoder.

Variable packer : Z -> Z -> Z -> Views -> Z * Z * Views.

(** One pass through the body of the [for] statement at index [i]. *)
Definition iteration (input : list byte) (i : nat)
           (intermediate position : Z) (ab : Views) : step :=
  if Nat.eqb i 11 then Throw "Maximum size reached"%string ab
  else
    let byte := operand (element input i) in
    let '(intermediate, position, ab) := packer byte intermediate position ab in
    if negb (JS.band byte 0x80 =? 0x80) then
      Break (U32_set (JS.Number (Nat.ltb 3 i)) intermediate ab)
    else Next intermediate position ab.

(** [for (let i = ..; i < length; i++) body], with [remaining] the
    number [length - i] of indices still below [length]: the guard
    [i < length] fails exactly when [remaining] is 0. *)
Fixpoint for_loop (input : list byte) (remaining : nat) (i : nat)
         (intermediate position : Z) (ab : Views) : completion :=
  match remaining with
  | O => Finished ab
  | S remaining' =>
      match iteration input i intermediate position ab with
      | Next intermediate position ab =>
          for_loop input remaining' (S i) intermediate position ab
      | Break ab => Finished ab
      | Throw msg ab => Threw msg ab
      end
  end.

(** The statements after the allocation or reset of the buffer: the
    two locals, the loop, and [return u64View[0]]. The buffer left
    behind is returned with the result. *)
Definition decode_with (ab : Views) (input : list byte)
  : outcome Z * Views :=
  let intermediate := 0 in
  let position := 0 in
  match for_loop input (length input) 0 intermediate position ab with
  | Finished ab => (Returned (U64_get ab), ab)
  | Threw msg ab => (Thrown msg, ab)
  end.

End Decoder.

(** [jsDecodeV1]: the buffer is allocated by the call and dropped with it. *)
Definition jsDecodeV1 (input : list byte) : outcome Z :=
  let ab := fresh in
  fst (decode_with packerV3 ab input).

(** [jsDecodeV2]: [AB] is module state, threaded through the call. *)
Definition jsDecodeV2 (AB : Views) (input : list byte) : outcome Z * Views :=
  let AB := U64_set 0 AB in
  decode_with packerV3 AB input.

(** [jsDecodeV3]: as V2 with [input.length] read once. *)
Definition jsDecodeV3 (AB : Views) (input : list byte) : outcome Z * Views :=
  let AB := U64_set 0 AB in
  decode_with packerV3 AB input.

(** [jsDecodeV4]: as V3 with the branchless position update. *)
Definition jsDecodeV4 (AB : Views) (input : list byte) : outcome Z * Views :=
  let AB := U64_set 0 AB in
  decode_with packerV4 AB input.

(** ** The BigInt reference decoder *)

(** The body of [while (true)] in [bigintDecode]; [None] when [fuel]
    passes are not enough. [BigInt(undefined)] throws a [TypeError]. *)
Fixpoint bigintDecode_loop (fuel : nat) (buffer : list byte)
         (value : Z) (length : Z) (i : nat) : option (outcome (Z * nat)) :=
  match fuel with
  | O => None
  | S fuel' =>
      match element buffer i with
      | None => Some (Thrown "Cannot convert undefined to a BigInt"%string)
      | Some b =>
          let currentByte := u8 b in
          let value := Z.lor value (Z.shiftl (Z.land currentByte 0x7F) length) in
          let length := length + 7 in
          let i := S i in
          if Nat.ltb 10 i then Some (Thrown "Max Length Reached"%string)
          else if negb (Z.land currentByte 0x80 =? 0x80) then
                 Some (Returned (value, i))
               else bigintDecode_loop fuel' buffer value length i
      end
  end.

Definition bigintDecode_fuel (fuel : nat) (buffer : list byte)
  : option (outcome (Z * nat)) :=
  bigintDecode_loop fuel buffer 0 0 0.

(** The call as written: eleven passes always suffice (see
    [bigintDecode_loop_enough]). *)
Definition bigintDecode (buffer : list byte) : option (outcome (Z * nat)) :=
  bigintDecode_fuel 11 buffer.

(** ** Deno's standard-library decoder *)

Definition MaxUInt64 : Z := 18446744073709551615.
Definition MaxVarIntLen64 : nat := 10.
Definition MSB : Z := 0x80.
Definition REST : Z := 0x7f.
Definition SHIFT : Z := 7.

(** [!x] on a number: true exactly for 0. *)
Definition JS_not (x : Z) : bool := x =? 0.

(** [Math.pow(2, shift)] for the shifts 0, 7, .., 63 the loop reaches: a
    power of two, which a double holds exactly; the product with the
    7-bit group [byte & REST] has at most 7 significant bits, so it is
    exact too and [BigInt] of it is the integer product. *)
Definition Math_pow (base exponent : Z) : Z := base ^ exponent.

(** The [for] statement of [decode], with [remaining] the number
    [len - i] of indices still below [len]; running off the end reaches
    the final [throw]. *)
Fixpoint decode_loop (buf : list byte) (remaining : nat) (i : nat)
         (shift : Z) (decoded : Z) : outcome (Z * nat) :=
  match remaining with
  | O => Thrown "malformed or overflow varint"
  | S remaining' =>
      let byte := operand (element buf i) in
      let decoded := decoded + JS.band byte REST * Math_pow 2 shift in
      if JS_not (JS.band byte MSB) && (MaxUInt64 <? decoded) then
        Thrown "overflow varint"
      else if JS_not (JS.band byte MSB) then Returned (decoded, S i)
      else decode_loop buf remaining' (S i) (shift + SHIFT) decoded
  end.

(** [decode(buf, offset)], for an offset that is a natural number. *)
Definition decode (buf : list byte) (offset : nat) : outcome (Z * nat) :=
  let len := Nat.min (length buf) (offset + MaxVarIntLen64) in
  decode_loop buf (len - offset) offset 0 0.

(** ** The WebAssembly module *)

Module Wasm.

(** Values of type [i64] and [i32] are kept unsigned. *)
Definition i64_and (a b : Z) : Z := Z.land a b.
Definition i64_or (a b : Z) : Z := Z.lor a b.
Definition i64_shl (a n : Z) : Z := Z.shiftl a (n mod 64) mod 2 ^ 64.
Definition i64_add (a b : Z) : Z := (a + b) mod 2 ^ 64.
Definition i64_eqz (a : Z) : Z := if a =? 0 then 1 else 0.
Definition i64_lt_u (a b : Z) : Z := if a <? b then 1 else 0.
Definition i64_div_u (a b : Z) : Z := a / b.
Definition i32_wrap_i64 (a : Z) : Z := a mod 2 ^ 32.
Definition i32_add (a b : Z) : Z := (a + b) mod 2 ^ 32.

(** [i64.load8_u]: [None] is the trap of an access outside the memory. *)
Definition i64_load8_u (memory : list byte) (address : Z) : option Z :=
  match nth_error memory (Z.to_nat address) with
  | Some b => Some (u8 b)
  | None => None
  end.

(** What a call of an exported function comes to: the two results
    [(result i64 i32)], or a trap. *)
Inductive result : Type :=
| Values (v : Z) (count : Z)
| Trap.

(** The body of [(loop $L0 ..)] inside [(block $B0 ..)], followed by the
    instructions after the block; [None] when [fuel] passes are not
    enough. *)
Fixpoint read_loop (fuel : nat) (memory : list byte) (ptr v length : Z)
  : option result :=
  match fuel with
  | O => None
  | S fuel' =>
      match i64_load8_u memory ptr with
      | None => Some Trap
      | Some temp =>
          let v := i64_or (i64_shl (i64_and temp 127) length) v in
          let length := i64_add length 7 in
          if negb (i64_eqz (i64_and temp 128) =? 0) then
            Some (Values v (i32_wrap_i64 (i64_div_u length 7)))
          else
            let ptr := i32_add ptr 1 in
            if negb (i64_lt_u length 70 =? 0) then
              read_loop fuel' memory ptr v length
            else Some Trap
      end
  end.

(** [$read], with the locals [$v] and [$length] starting at 0; ten
    passes always suffice (see [read_loop_enough]). *)
Definition read (memory : list byte) (ptr : Z) : option result :=
  read_loop 10 memory ptr 0 0.

End Wasm.

(** ** Vocabulary of the specification *)

(** The continuation bit (0x80) of an encoded byte. *)
Definition continues (b : byte) : bool := Z.land (u8 b) 0x80 =? 0x80.

(** Zero-based index of the first byte whose continuation bit is clear. *)
Fixpoint terminal_index (input : list byte) : option nat :=
  match input with
  | [] => None
  | b :: bs =>
      if continues b then option_map S (terminal_index bs) else Some O
  end.

(** The locals and the buffer after the accumulator step has consumed
    [bytes] in order. *)
Fixpoint pack (packer : Z -> Z -> Z -> Views -> Z * Z * Views)
         (bytes : list byte) (intermediate position : Z) (ab : Views)
  : Z * Z * Views :=
  match bytes with
  | [] => (intermediate, position, ab)
  | b :: bs =>
      let '(intermediate, position, ab) :=
        packer (u8 b) intermediate position ab in
      pack packer bs intermediate position ab
  end.

(** The seven value bits of an encoded byte. *)
Definition payload (b : byte) : Z := Z.land (u8 b) 0x7F.

(** The number a sequence of 7-bit groups stands for, least significant
    group first. *)
Fixpoint leb128 (bytes : list byte) : Z :=
  match bytes with
  | [] => 0
  | b :: bs => payload b + 2 ^ 7 * leb128 bs
  end.

(** The lanes of the buffer hold 32-bit values. *)
Definition lanes_in_range (ab : Views) : Prop :=
  0 <= lane0 ab < 2 ^ 32 /\ 0 <= lane1 ab < 2 ^ 32.

(** The module-level buffer after a sequence of earlier calls. *)
Fixpoint after_calls (calls : list (list byte)) (AB : Views) : Views :=
  match calls with
  | [] => AB
  | input :: calls' => after_calls calls' (snd (jsDecodeV4 AB input))
  end.

(** * Properties *)

(** ** Bytes and operators *)

Lemma u8_range (b : byte) : 0 <= u8 b < 256.
Proof.
  unfold u8. pose proof (Byte.to_N_bounded b) as Hle.
  split; [apply N2Z.is_nonneg|].
  apply N2Z.inj_le in Hle. simpl in Hle. lia.
Qed.

(** The test [(byte & 0x80) !== 0x80] reads the continuation bit. *)
Lemma band_msb (b : byte) : (JS.band (u8 b) 0x80 =? 0x80) = continues b.
Proof. destruct b; reflexivity. Qed.

Lemma ToUint32_range (x : Z) : 0 <= JS.ToUint32 x < 2 ^ 32.
Proof. unfold JS.ToUint32. apply Z.mod_pos_bound. lia. Qed.

Lemma Number_ltb_small (i : nat) : (i <= 3)%nat -> JS.Number (Nat.ltb 3 i) = 0.
Proof.
  intros Hi. destruct (Nat.ltb_spec 3 i) as [Hlt | _]; [lia | reflexivity].
Qed.

Lemma Number_ltb_large (i : nat) : (3 < i)%nat -> JS.Number (Nat.ltb 3 i) = 1.
Proof.
  intros Hi. destruct (Nat.ltb_spec 3 i) as [_ | Hle]; [reflexivity | lia].
Qed.

(** ** The two accumulator steps agree *)

Lemma packerV3_V4 (byte intermediate position : Z) (ab : Views) :
  packerV3 byte intermediate position ab = packerV4 byte intermediate position ab.
Proof.
  unfold packerV3, packerV4.
  destruct (position =? 28); reflexivity.
Qed.

Section PackerExt.

Variables p q : Z -> Z -> Z -> Views -> Z * Z * Views.
Hypothesis p_q : forall byte acc pos ab, p byte acc pos ab = q byte acc pos ab.

Lemma iteration_ext input i acc pos ab :
  iteration p input i acc pos ab = iteration q input i acc pos ab.
Proof. unfold iteration. rewrite p_q. reflexivity. Qed.

Lemma for_loop_ext input remaining : forall i acc pos ab,
  for_loop p input remaining i acc pos ab =
  for_loop q input remaining i acc pos ab.
Proof.
  induction remaining as [| r IH]; intros i acc pos ab; simpl.
  - reflexivity.
  - rewrite iteration_ext.
    destruct (iteration q input i acc pos ab); auto.
Qed.

Lemma decode_with_ext ab input :
  decode_with p ab input = decode_with q ab input.
Proof. unfold decode_with. rewrite for_loop_ext. reflexivity. Qed.

End PackerExt.

(** ** Walking the loop along the input *)

Lemma skipn_cons_inv : forall (i : nat) (input : list byte) b tl,
  skipn i input = b :: tl ->
  element input i = Some b /\ skipn (S i) input = tl.
Proof.
  induction i as [| i IH]; intros [| a input] b tl H; simpl in H;
    try discriminate.
  - injection H as -> ->. split; reflexivity.
  - apply IH in H. exact H.
Qed.

Section LoopFacts.

Variable packer : Z -> Z -> Z -> Views -> Z * Z * Views.

Lemma iteration_continue input i b tl acc pos ab :
  skipn i input = b :: tl -> i <> 11%nat -> continues b = true ->
  iteration packer input i acc pos ab =
  let '(acc', pos', ab') := packer (u8 b) acc pos ab in Next acc' pos' ab'.
Proof.
  intros Hsk Hi Hb. unfold iteration.
  apply Nat.eqb_neq in Hi. rewrite Hi.
  destruct (skipn_cons_inv _ _ _ _ Hsk) as [-> _]. simpl operand.
  destruct (packer (u8 b) acc pos ab) as [[acc' pos'] ab'].
  rewrite band_msb, Hb. reflexivity.
Qed.

Lemma iteration_terminal input i b tl acc pos ab :
  skipn i input = b :: tl -> i <> 11%nat -> continues b = false ->
  iteration packer input i acc pos ab =
  let '(acc', pos', ab') := packer (u8 b) acc pos ab in
  Break (U32_set (JS.Number (Nat.ltb 3 i)) acc' ab').
Proof.
  intros Hsk Hi Hb. unfold iteration.
  apply Nat.eqb_neq in Hi. rewrite Hi.
  destruct (skipn_cons_inv _ _ _ _ Hsk) as [-> _]. simpl operand.
  destruct (packer (u8 b) acc pos ab) as [[acc' pos'] ab'].
  rewrite band_msb, Hb. reflexivity.
Qed.

(** Bytes with the continuation bit set are consumed one by one as
    long as the index stays below 11. *)
Lemma for_loop_prefix : forall pre input i rest acc pos ab,
  skipn i input = pre ++ rest ->
  Forall (fun b => continues b = true) pre ->
  (i + length pre <= 11)%nat ->
  for_loop packer input (length (pre ++ rest)) i acc pos ab =
  let '(acc', pos', ab') := pack packer pre acc pos ab in
  for_loop packer input (length rest) (i + length pre) acc' pos' ab'.
Proof.
  induction pre as [| b pre IH]; intros input i rest acc pos ab Hsk Hall Hlen.
  - simpl. rewrite Nat.add_0_r. reflexivity.
  - simpl in Hsk, Hlen. inversion Hall as [| ? ? Hb Hpre]; subst.
    simpl length. simpl for_loop.
    rewrite (iteration_continue _ _ _ _ _ _ _ Hsk) by (lia || assumption).
    simpl pack.
    destruct (packer (u8 b) acc pos ab) as [[acc1 pos1] ab1].
    destruct (skipn_cons_inv _ _ _ _ Hsk) as [_ Hsk'].
    rewrite (IH input (S i) rest acc1 pos1 ab1 Hsk' Hpre) by lia.
    replace (S i + length pre)%nat with (i + S (length pre))%nat by lia.
    reflexivity.
Qed.

(** A terminal byte at an index of at most 10 ends the loop with the
    store of the accumulator into lane [Number(i > 3)]. *)
Lemma for_loop_terminal pre b rest ab :
  Forall (fun b => continues b = true) pre ->
  continues b = false ->
  (length pre <= 10)%nat ->
  for_loop packer (pre ++ b :: rest) (length (pre ++ b :: rest)) 0 0 0 ab =
  let '(acc', _, ab') := pack packer (pre ++ [b]) 0 0 ab in
  Finished (U32_set (JS.Number (Nat.ltb 3 (length pre))) acc' ab').
Proof.
  intros Hpre Hb Hlen.
  rewrite (for_loop_prefix pre (pre ++ b :: rest) 0 (b :: rest) 0 0 ab)
    by (reflexivity || assumption || (simpl; lia)).
  assert (Hpack : forall l acc pos ab0,
             pack packer (l ++ [b]) acc pos ab0 =
             let '(acc1, pos1, ab1) := pack packer l acc pos ab0 in
             packer (u8 b) acc1 pos1 ab1).
  { induction l as [| x l IHl]; intros acc pos ab0; simpl.
    - destruct (packer (u8 b) acc pos ab0) as [[? ?] ?]. reflexivity.
    - destruct (packer (u8 x) acc pos ab0) as [[? ?] ?]. apply IHl. }
  rewrite Hpack.
  destruct (pack packer pre 0 0 ab) as [[acc1 pos1] ab1].
  simpl length. simpl for_loop.
  assert (Hsk : skipn (length pre) (pre ++ b :: rest) = b :: rest).
  { rewrite skipn_app, Nat.sub_diag, skipn_all. reflexivity. }
  rewrite (iteration_terminal _ _ _ _ _ _ _ Hsk) by (simpl; lia || assumption).
  destruct (packer (u8 b) acc1 pos1 ab1) as [[acc2 pos2] ab2].
  reflexivity.
Qed.

(** Without a terminal byte the loop runs off the end of the input,
    provided the input has at most 11 bytes. *)
Lemma for_loop_unterminated input ab :
  Forall (fun b => continues b = true) input ->
  (length input <= 11)%nat ->
  for_loop packer input (length input) 0 0 0 ab =
  let '(_, _, ab') := pack packer input 0 0 ab in Finished ab'.
Proof.
  intros Hall Hlen.
  pose proof (for_loop_prefix input input 0 [] 0 0 ab) as H.
  rewrite app_nil_r in H. rewrite H by (reflexivity || assumption || (simpl; lia)).
  destruct (pack packer input 0 0 ab) as [[acc1 pos1] ab1]. reflexivity.
Qed.

(** Eleven continuation bytes followed by anything reach index 11. *)
Lemma for_loop_overlong pre b rest ab :
  Forall (fun b => continues b = true) pre ->
  length pre = 11%nat ->
  for_loop packer (pre ++ b :: rest) (length (pre ++ b :: rest)) 0 0 0 ab =
  let '(_, _, ab') := pack packer pre 0 0 ab in
  Threw "Maximum size reached" ab'.
Proof.
  intros Hpre Hlen.
  rewrite (for_loop_prefix pre (pre ++ b :: rest) 0 (b :: rest) 0 0 ab)
    by (reflexivity || assumption || (simpl; lia)).
  destruct (pack packer pre 0 0 ab) as [[acc1 pos1] ab1].
  simpl. rewrite Hlen. reflexivity.
Qed.

End LoopFacts.

(** ** The first terminal byte *)

Lemma terminal_index_split : forall input i,
  terminal_index input = Some i ->
  exists pre b rest,
    input = pre ++ b :: rest /\ length pre = i /\
    Forall (fun b => continues b = true) pre /\ continues b = false.
Proof.
  induction input as [| a input IH]; intros i H; simpl in H.
  - discriminate.
  - destruct (continues a) eqn:Ha.
    + destruct (terminal_index input) as [j |] eqn:Hj; simpl in H;
        [| discriminate].
      injection H as <-.
      destruct (IH j eq_refl) as (pre & b & rest & -> & <- & Hpre & Hb).
      exists (a :: pre), b, rest. repeat split; auto.
    + injection H as <-. exists [], a, input. repeat split; auto.
Qed.

Lemma terminal_index_app : forall pre b rest,
  Forall (fun b => continues b = true) pre -> continues b = false ->
  terminal_index (pre ++ b :: rest) = Some (length pre).
Proof.
  induction pre as [| a pre IH]; intros b rest Hpre Hb; simpl.
  - rewrite Hb. reflexivity.
  - inversion Hpre as [| ? ? Ha Hpre']; subst.
    rewrite Ha, (IH b rest Hpre' Hb). reflexivity.
Qed.

Lemma firstn_terminal (pre : list byte) b rest :
  firstn (S (length pre)) (pre ++ b :: rest) = pre ++ [b].
Proof.
  replace (S (length pre)) with (length pre + 1)%nat by lia.
  rewrite firstn_app_2. reflexivity.
Qed.

(** ** Where the accumulator step flushes *)

(** While the position is a small multiple of 7 the buffer is not
    touched: the first four bytes only fill the accumulator. *)
Lemma pack_low_no_flush : forall bytes acc k ab,
  (k + length bytes <= 4)%nat ->
  exists acc',
    pack packerV4 bytes acc (7 * Z.of_nat k) ab =
    (acc', 7 * Z.of_nat (k + length bytes), ab).
Proof.
  induction bytes as [| b bytes IH]; intros acc k ab Hlen;
    cbn [pack length] in *.
  - exists acc. rewrite Nat.add_0_r. reflexivity.
  - unfold packerV4 at 1.
    replace (7 * Z.of_nat k =? 28) with false
      by (symmetry; apply Z.eqb_neq; lia).
    replace (7 * Z.of_nat k + 7) with (7 * Z.of_nat (S k)) by lia.
    destruct (IH (JS.bor acc (JS.shl (JS.band (u8 b) 127) (7 * Z.of_nat k)))
                 (S k) ab) as [acc' Hacc']; [lia |].
    exists acc'. rewrite Hacc'.
    replace (S k + length bytes)%nat with (k + S (length bytes))%nat by lia.
    reflexivity.
Qed.

(** After the flush the position is 3 modulo 7 and never 28 again. *)
Lemma pack_high_no_flush : forall bytes acc pos ab,
  pos mod 7 = 3 ->
  exists acc',
    pack packerV4 bytes acc pos ab =
    (acc', pos + 7 * Z.of_nat (length bytes), ab).
Proof.
  induction bytes as [| b bytes IH]; intros acc pos ab Hpos;
    cbn [pack length].
  - exists acc. rewrite Z.add_0_r. reflexivity.
  - unfold packerV4 at 1.
    replace (pos =? 28) with false
      by (symmetry; apply Z.eqb_neq; intros ->; discriminate Hpos).
    destruct (IH (JS.bor acc (JS.shl (JS.band (u8 b) 127) pos)) (pos + 7) ab)
      as [acc' Hacc'].
    { replace (pos + 7) with (pos + 1 * 7) by lia.
      rewrite Z.mod_add by lia. exact Hpos. }
    exists acc'. rewrite Hacc'. f_equal. f_equal. lia.
Qed.

(** ** The reference loop *)

Lemma element_skipn : forall (i : nat) (buffer : list byte) b,
  element buffer i = Some b -> skipn i buffer = b :: skipn (S i) buffer.
Proof.
  induction i as [| i IH]; intros [| a buffer] b H; simpl in H;
    try discriminate.
  - injection H as ->. reflexivity.
  - apply (IH buffer b H).
Qed.

Lemma bigintDecode_loop_count : forall fuel buffer value len i v n,
  bigintDecode_loop fuel buffer value len i = Some (Returned (v, n)) ->
  exists k, terminal_index (skipn i buffer) = Some k /\ n = S (i + k).
Proof.
  induction fuel as [| fuel IH]; intros buffer value len i v n H; simpl in H.
  - discriminate.
  - destruct (element buffer i) as [b |] eqn:Hb; [| discriminate].
    rewrite (element_skipn _ _ _ Hb). cbn [terminal_index].
    destruct (Nat.ltb 10 (S i)); [discriminate |].
    fold (continues b) in H. destruct (continues b) eqn:Hc; cbn [negb] in H.
    + apply IH in H. destruct H as (k & Hk & ->).
      exists (S k). rewrite Hk. split; [reflexivity | lia].
    + injection H as _ <-. exists O. split; [reflexivity | lia].
Qed.

(** Eleven passes are enough: the loop leaves by [break] or by a throw
    before the twelfth. *)
Lemma bigintDecode_loop_enough : forall fuel buffer value len i,
  (i <= 10)%nat -> (11 - i <= fuel)%nat ->
  exists r, bigintDecode_loop fuel buffer value len i = Some r /\
            forall fuel', (fuel <= fuel')%nat ->
                          bigintDecode_loop fuel' buffer value len i = Some r.
Proof.
  induction fuel as [| fuel IH]; intros buffer value len i Hi Hfuel.
  - lia.
  - simpl. destruct (element buffer i) as [b |] eqn:Hb.
    + destruct (Nat.ltb 10 (S i)) eqn:Hlt.
      * eexists. split; [reflexivity |].
        intros [| fuel'] Hle; [lia |]. simpl. rewrite Hb, Hlt. reflexivity.
      * destruct (negb (Z.land (u8 b) 128 =? 128)) eqn:Hc.
        -- eexists. split; [reflexivity |].
           intros [| fuel'] Hle; [lia |]. simpl. rewrite Hb, Hlt, Hc.
           reflexivity.
        -- apply Nat.ltb_ge in Hlt.
           destruct (IH buffer
                        (Z.lor value (Z.shiftl (Z.land (u8 b) 127) len))
                        (len + 7) (S i)) as (r & Hr & Hmore); [lia | lia |].
           exists r. split; [exact Hr |].
           intros [| fuel'] Hle; [lia |]. simpl.
           apply Nat.ltb_ge in Hlt. rewrite Hb, Hlt, Hc.
           apply Hmore. lia.
    + eexists. split; [reflexivity |].
      intros [| fuel'] Hle; [lia |]. simpl. rewrite Hb. reflexivity.
Qed.

(** ** What the accumulator holds *)

Lemma band_payload (b : byte) : JS.band (u8 b) 0x7F = payload b.
Proof. destruct b; reflexivity. Qed.

Lemma payload_range (b : byte) : 0 <= payload b < 2 ^ 7.
Proof. destruct b; vm_compute; split; congruence. Qed.

Lemma leb128_range : forall bytes,
  0 <= leb128 bytes < 2 ^ (7 * Z.of_nat (length bytes)).
Proof.
  induction bytes as [| b bytes IH]; cbn [leb128 length].
  - simpl. lia.
  - pose proof (payload_range b) as Hb.
    replace (7 * Z.of_nat (S (length bytes)))
      with (7 + 7 * Z.of_nat (length bytes)) by lia.
    rewrite Z.pow_add_r by lia. nia.
Qed.

Lemma leb128_app : forall pre rest,
  leb128 (pre ++ rest) =
  leb128 pre + 2 ^ (7 * Z.of_nat (length pre)) * leb128 rest.
Proof.
  induction pre as [| b pre IH]; intros rest; cbn [leb128 length app].
  - change (7 * Z.of_nat 0) with 0. rewrite Z.pow_0_r. lia.
  - rewrite IH.
    replace (7 * Z.of_nat (S (length pre)))
      with (7 + 7 * Z.of_nat (length pre)) by lia.
    rewrite Z.pow_add_r by lia. ring.
Qed.

Lemma ToInt32_small (x : Z) : 0 <= x < 2 ^ 31 -> JS.ToInt32 x = x.
Proof.
  intros Hx. unfold JS.ToInt32.
  rewrite Z.mod_small by lia.
  destruct (Z.ltb_spec x (2 ^ 31)); [reflexivity | lia].
Qed.

Lemma ToUint32_ToInt32 (x : Z) : JS.ToUint32 (JS.ToInt32 x) = JS.ToUint32 x.
Proof.
  unfold JS.ToUint32, JS.ToInt32.
  destruct (x mod 2 ^ 32 <? 2 ^ 31).
  - apply Z.mod_mod. lia.
  - replace (x mod 2 ^ 32 - 2 ^ 32) with (x mod 2 ^ 32 + (-1) * 2 ^ 32) by lia.
    rewrite Z.mod_add by lia. apply Z.mod_mod. lia.
Qed.

(** Bits that do not overlap are combined by [|] as by addition. *)
Lemma lor_disjoint (a m n : Z) :
  0 <= n -> 0 <= a < 2 ^ n -> Z.lor a (m * 2 ^ n) = a + m * 2 ^ n.
Proof.
  intros Hn Ha.
  assert (Hland : Z.land a (m * 2 ^ n) = 0).
  { apply Z.bits_inj'. intros i Hi.
    rewrite Z.land_spec, Z.bits_0.
    destruct (Z.lt_ge_cases i n) as [Hlt | Hge].
    - rewrite (Z.mul_pow2_bits_low m n i) by lia. apply andb_false_r.
    - destruct (Z.eq_dec a 0) as [-> | Hne].
      + rewrite Z.bits_0. reflexivity.
      + rewrite (Z.bits_above_log2 a i); [reflexivity | lia |].
        apply Z.log2_lt_pow2; [lia |].
        apply Z.lt_le_trans with (2 ^ n); [lia |].
        apply Z.pow_le_mono_r; lia. }
  rewrite <- Z.lxor_lor by exact Hland.
  symmetry. apply Z.add_nocarry_lxor. exact Hland.
Qed.

(** Below bit 28 the shift [<<] loses nothing. *)
Lemma shl_low (x : Z) (k : nat) :
  0 <= x < 2 ^ 7 -> (k <= 3)%nat ->
  JS.shl x (7 * Z.of_nat k) = x * 2 ^ (7 * Z.of_nat k).
Proof.
  intros Hx Hk. unfold JS.shl.
  rewrite (ToInt32_small x) by lia.
  assert (Hcount : Z.land (JS.ToUint32 (7 * Z.of_nat k)) 31 = 7 * Z.of_nat k).
  { destruct k as [| [| [| [| k]]]]; try reflexivity. lia. }
  rewrite Hcount, Z.shiftl_mul_pow2 by lia.
  apply ToInt32_small.
  assert (2 ^ (7 * Z.of_nat k) <= 2 ^ 21) by (apply Z.pow_le_mono_r; lia).
  change (2 ^ 31) with (2 ^ 7 * 2 ^ 3 * 2 ^ 21). nia.
Qed.

(** The first four bytes fill the accumulator with their groups. *)
Lemma pack_low_value : forall bytes acc k ab,
  (k + length bytes <= 4)%nat ->
  0 <= acc < 2 ^ (7 * Z.of_nat k) ->
  pack packerV4 bytes acc (7 * Z.of_nat k) ab =
  (acc + 2 ^ (7 * Z.of_nat k) * leb128 bytes,
   7 * Z.of_nat (k + length bytes), ab).
Proof.
  induction bytes as [| b bytes IH]; intros acc k ab Hlen Hacc;
    cbn [pack length leb128] in *.
  - rewrite Nat.add_0_r. f_equal. f_equal. lia.
  - unfold packerV4 at 1.
    replace (7 * Z.of_nat k =? 28) with false
      by (symmetry; apply Z.eqb_neq; lia).
    pose proof (payload_range b) as Hb.
    assert (Hpow : 2 ^ (7 * Z.of_nat k) <= 2 ^ 21)
      by (apply Z.pow_le_mono_r; lia).
    rewrite band_payload, shl_low by lia.
    unfold JS.bor.
    rewrite (ToInt32_small acc) by lia.
    rewrite (ToInt32_small (payload b * 2 ^ (7 * Z.of_nat k)))
      by (change (2 ^ 31) with (2 ^ 7 * 2 ^ 3 * 2 ^ 21); nia).
    rewrite lor_disjoint by lia.
    rewrite ToInt32_small
      by (change (2 ^ 31) with (2 ^ 7 * 2 ^ 3 * 2 ^ 21); nia).
    replace (7 * Z.of_nat k + 7) with (7 * Z.of_nat (S k)) by lia.
    assert (Hstep : 2 ^ (7 * Z.of_nat (S k)) = 2 ^ (7 * Z.of_nat k) * 2 ^ 7).
    { replace (7 * Z.of_nat (S k)) with (7 * Z.of_nat k + 7) by lia.
      apply Z.pow_add_r; lia. }
    rewrite IH by (lia || (rewrite Hstep; nia)).
    rewrite Hstep.
    replace (S k + length bytes)%nat with (k + S (length bytes))%nat by lia.
    f_equal. f_equal. ring.
Qed.

Lemma ToInt32_idem (x : Z) : JS.ToInt32 (JS.ToInt32 x) = JS.ToInt32 x.
Proof.
  unfold JS.ToInt32 at 1.
  change (JS.ToInt32 x mod 2 ^ 32) with (JS.ToUint32 (JS.ToInt32 x)).
  rewrite ToUint32_ToInt32. reflexivity.
Qed.

(** At position 28 the shift [<<] keeps the low four bits of the group:
    the result is the group times [2 ^ 28] up to a multiple of [2 ^ 32]. *)
Lemma shl_28 (b : byte) :
  exists t, JS.shl (JS.band (u8 b) 0x7F) 28 = (payload b + 16 * t) * 2 ^ 28.
Proof.
  exists ((JS.shl (JS.band (u8 b) 0x7F) 28 / 2 ^ 28 - payload b) / 16).
  destruct b; reflexivity.
Qed.

Lemma reseed_bits (b : byte) :
  JS.band (JS.shru (u8 b) 3) 0x07 = Z.land (Z.shiftr (u8 b) 3) 0x07.
Proof. destruct b; reflexivity. Qed.

(** The fifth byte completes the low word and flushes it. *)
Lemma flush_value (b : byte) (acc : Z) (ab : Views) :
  0 <= acc < 2 ^ 28 ->
  packerV4 (u8 b) acc 28 ab =
  (Z.land (Z.shiftr (u8 b) 3) 0x07, 3,
   mkViews ((acc + 2 ^ 28 * payload b) mod 2 ^ 32) (lane1 ab)).
Proof.
  intros Hacc. unfold packerV4. change (28 =? 28) with true. cbv iota beta.
  rewrite reseed_bits. change (-4 + 7) with 3.
  f_equal. unfold U32_set. change (0 =? 0) with true. cbv iota.
  f_equal. unfold JS.bor.
  rewrite ToUint32_ToInt32.
  destruct (shl_28 b) as [t Ht]. rewrite Ht.
  unfold JS.shl in Ht. rewrite <- Ht, ToInt32_idem, Ht.
  rewrite (ToInt32_small acc) by lia.
  rewrite lor_disjoint by lia.
  unfold JS.ToUint32.
  replace (acc + (payload b + 16 * t) * 2 ^ 28)
    with (acc + 2 ^ 28 * payload b + t * 2 ^ 32) by lia.
  apply Z.mod_add. lia.
Qed.

Lemma pack_app packer : forall l1 l2 acc pos ab,
  pack packer (l1 ++ l2) acc pos ab =
  let '(acc1, pos1, ab1) := pack packer l1 acc pos ab in
  pack packer l2 acc1 pos1 ab1.
Proof.
  induction l1 as [| x l1 IH]; intros l2 acc pos ab; cbn [pack app].
  - reflexivity.
  - destruct (packer (u8 x) acc pos ab) as [[acc1 pos1] ab1]. apply IH.
Qed.

(** From the fifth byte on, the low lane holds the low 32 bits of the
    first five groups and is not written again by the accumulator. *)
Lemma pack_flush (input : list byte) (ab : Views) :
  (5 <= length input)%nat ->
  exists acc' pos',
    pack packerV4 input 0 0 ab =
    (acc', pos', mkViews (leb128 (firstn 5 input) mod 2 ^ 32) (lane1 ab)).
Proof.
  intros Hlen.
  destruct input as [| b0 [| b1 [| b2 [| b3 [| b4 tail]]]]];
    cbn [length] in Hlen; try lia.
  change (b0 :: b1 :: b2 :: b3 :: b4 :: tail)
    with ([b0; b1; b2; b3] ++ b4 :: tail).
  rewrite pack_app.
  assert (Hp := pack_low_value [b0; b1; b2; b3] 0 0 ab).
  cbn [length] in Hp.
  change (7 * Z.of_nat (0 + 4)) with 28 in Hp.
  change (7 * Z.of_nat 0) with 0 in Hp.
  rewrite Z.pow_0_r in Hp.
  rewrite Hp by lia.
  pose proof (leb128_range [b0; b1; b2; b3]) as Hlow.
  cbn [length] in Hlow.
  change (7 * Z.of_nat 4) with 28 in Hlow.
  cbn [pack].
  rewrite flush_value by lia.
  destruct (pack_high_no_flush tail (Z.land (Z.shiftr (u8 b4) 3) 7) 3
              (mkViews ((0 + 1 * leb128 [b0; b1; b2; b3] + 2 ^ 28 * payload b4)
                          mod 2 ^ 32) (lane1 ab)))
    as [acc' Hacc']; [reflexivity |].
  rewrite Hacc'. exists acc', (3 + 7 * Z.of_nat (length tail)).
  f_equal. f_equal. f_equal.
  change (firstn 5 ([b0; b1; b2; b3] ++ b4 :: tail))
    with ([b0; b1; b2; b3] ++ [b4]).
  rewrite leb128_app. cbn [length leb128].
  change (7 * Z.of_nat 4) with 28. lia.
Qed.

(** ** The decoders on the three shapes of input *)

Lemma decode_with_terminal packer ab pre b rest :
  Forall (fun b => continues b = true) pre ->
  continues b = false ->
  (length pre <= 10)%nat ->
  decode_with packer ab (pre ++ b :: rest) =
  let '(acc', _, ab') := pack packer (pre ++ [b]) 0 0 ab in
  let final := U32_set (JS.Number (Nat.ltb 3 (length pre))) acc' ab' in
  (Returned (U64_get final), final).
Proof.
  intros Hpre Hb Hlen. unfold decode_with. cbv zeta.
  rewrite for_loop_terminal by assumption.
  destruct (pack packer (pre ++ [b]) 0 0 ab) as [[acc' pos'] ab'].
  reflexivity.
Qed.

Lemma decode_with_unterminated packer ab input :
  Forall (fun b => continues b = true) input ->
  (length input <= 11)%nat ->
  decode_with packer ab input =
  let '(_, _, ab') := pack packer input 0 0 ab in
  (Returned (U64_get ab'), ab').
Proof.
  intros Hall Hlen. unfold decode_with. cbv zeta.
  rewrite for_loop_unterminated by assumption.
  destruct (pack packer input 0 0 ab) as [[acc' pos'] ab'].
  reflexivity.
Qed.

Lemma decode_with_overlong packer ab pre b rest :
  Forall (fun b => continues b = true) pre ->
  length pre = 11%nat ->
  fst (decode_with packer ab (pre ++ b :: rest)) =
  Thrown "Maximum size reached".
Proof.
  intros Hpre Hlen. unfold decode_with. cbv zeta.
  rewrite for_loop_overlong by assumption.
  destruct (pack packer pre 0 0 ab) as [[acc' pos'] ab'].
  reflexivity.
Qed.

(** Twelve or more bytes that all carry the continuation bit are
    rejected by every variant. *)
Lemma jsDecodeV4_twelve_rejected (AB : Views) (input : list byte) :
  Forall (fun b => continues b = true) input ->
  (12 <= length input)%nat ->
  fst (jsDecodeV4 AB input) = Thrown "Maximum size reached".
Proof.
  intros Hall Hlen. unfold jsDecodeV4. cbv zeta.
  assert (Hfirst : Forall (fun b => continues b = true) (firstn 11 input)).
  { rewrite <- (firstn_skipn 11 input) in Hall.
    apply Forall_app in Hall. apply Hall. }
  rewrite <- (firstn_skipn 11 input).
  destruct (skipn 11 input) as [| b rest] eqn:Hsk.
  - apply (f_equal (@length byte)) in Hsk.
    rewrite length_skipn in Hsk. simpl in Hsk. lia.
  - apply decode_with_overlong.
    + exact Hfirst.
    + rewrite length_firstn. lia.
Qed.

(** ** The value built by the reference loop *)

Lemma firstn_S_element : forall (i : nat) (buffer : list byte) b,
  element buffer i = Some b ->
  firstn (S i) buffer = firstn i buffer ++ [b] /\ length (firstn i buffer) = i.
Proof.
  induction i as [| i IH]; intros [| a buffer] b H; simpl in H;
    try discriminate.
  - injection H as ->. split; reflexivity.
  - destruct (IH buffer b H) as [Hf Hl].
    change (firstn (S (S i)) (a :: buffer)) with (a :: firstn (S i) buffer).
    rewrite Hf. cbn [firstn length app]. rewrite Hl. split; reflexivity.
Qed.

Lemma bigintDecode_loop_value : forall fuel buffer value len i v n,
  value = leb128 (firstn i buffer) -> len = 7 * Z.of_nat i ->
  bigintDecode_loop fuel buffer value len i = Some (Returned (v, n)) ->
  v = leb128 (firstn n buffer).
Proof.
  induction fuel as [| fuel IH]; intros buffer value len i v n Hv Hl H;
    cbn [bigintDecode_loop] in H.
  - discriminate.
  - destruct (element buffer i) as [b |] eqn:Hb; [| discriminate].
    destruct (firstn_S_element _ _ _ Hb) as [Hfirst Hlen].
    assert (Hvalue : Z.lor value (Z.shiftl (Z.land (u8 b) 0x7F) len) =
                     leb128 (firstn (S i) buffer)).
    { subst value len. fold (payload b).
      pose proof (leb128_range (firstn i buffer)) as Hr. rewrite Hlen in Hr.
      rewrite Z.shiftl_mul_pow2, lor_disjoint by lia.
      rewrite Hfirst, leb128_app, Hlen. cbn [leb128]. lia. }
    rewrite Hvalue in H.
    destruct (Nat.ltb 10 (S i)); [discriminate |].
    destruct (negb (Z.land (u8 b) 128 =? 128)).
    + injection H as <- <-. reflexivity.
    + apply (IH buffer _ _ (S i) v n eq_refl) in H; [exact H | lia].
Qed.

Lemma bigintDecode_loop_bound : forall fuel buffer value len i v n,
  bigintDecode_loop fuel buffer value len i = Some (Returned (v, n)) ->
  (n <= 10)%nat.
Proof.
  induction fuel as [| fuel IH]; intros buffer value len i v n H;
    cbn [bigintDecode_loop] in H.
  - discriminate.
  - destruct (element buffer i) as [b |]; [| discriminate].
    destruct (Nat.ltb_spec 10 (S i)) as [_ | Hle]; [discriminate |].
    destruct (negb (Z.land (u8 b) 128 =? 128)).
    + injection H as _ <-. exact Hle.
    + apply IH in H. exact H.
Qed.

(** * The claims *)

(** C1. The claim: for the 5-byte encoding FF FF FF FF 0F of 0xFFFFFFFF
    the fast decoders return exactly 0xFFFFFFFF. On the code they do
    not: [jsDecodeV4] and [jsDecodeV1] return 0x1FFFFFFFF, the low word
    being flushed correctly and the carry into the high word taking byte
    bits 3..5 instead of 4..6. The bytes stand for 0xFFFFFFFF, which is
    what the reference decoder returns. *)
Theorem lane_boundary_0xFFFFFFFF (AB : Views) :
  jsDecodeV4 AB [xff; xff; xff; xff; x0f] =
    (Returned 0x1FFFFFFFF, mkViews 0xFFFFFFFF 1) /\
  jsDecodeV1 [xff; xff; xff; xff; x0f] = Returned 0x1FFFFFFFF /\
  leb128 [xff; xff; xff; xff; x0f] = 0xFFFFFFFF /\
  bigintDecode [xff; xff; xff; xff; x0f] = Some (Returned (0xFFFFFFFF, 5%nat)).
Proof. repeat split. Qed.

(** C2. The claim: at bit position 28 the accumulator is flushed to the
    low word and reseeded with [(byte >> 4) & 0x07], byte bits 4..6. On
    the code the flush is as claimed, and the reseed is
    [(byte >>> 3) & 0x07], byte bits 3..5, in both accumulator steps: for
    the byte 0x08 the code reseeds with 1 where the claimed expression
    gives 0, and the input 80 80 80 80 08, which stands for [2 ^ 31],
    decodes to [2 ^ 32 + 2 ^ 31]. *)
Theorem reseed_takes_bits_3_to_5 (b : byte) (intermediate : Z) (ab : Views) :
  packerV4 (u8 b) intermediate 28 ab =
    (Z.land (Z.shiftr (u8 b) 3) 0x07, 3,
     U32_set 0 (JS.bor intermediate (JS.shl (JS.band (u8 b) 0x7F) 28)) ab) /\
  packerV3 (u8 b) intermediate 28 ab = packerV4 (u8 b) intermediate 28 ab /\
  fst (fst (packerV4 (u8 x08) 0 28 fresh)) = 1 /\
  Z.land (Z.shiftr (u8 x08) 4) 0x07 = 0 /\
  fst (jsDecodeV4 ab [x80; x80; x80; x80; x08]) = Returned (2 ^ 32 + 2 ^ 31) /\
  leb128 [x80; x80; x80; x80; x08] = 2 ^ 31.
Proof.
  split; [| split; [apply packerV3_V4 | repeat split]].
  unfold packerV4. change (28 =? 28) with true. cbv iota beta.
  rewrite reseed_bits. reflexivity.
Qed.

(** C3. The claim: 11 or more bytes that all carry the continuation bit
    make decode fail, and no successful decode consumes more than 10
    bytes. On the code the guard is [i === 11]: eleven such bytes run the
    loop to its end and 0 is returned, and a terminal byte at index 10 is
    accepted as the eleventh byte of a successful decode. The reference
    decoder rejects that input. *)
Theorem eleven_bytes_accepted (AB : Views) :
  fst (jsDecodeV4 AB (repeat x80 11)) = Returned 0 /\
  Forall (fun b => continues b = true) (repeat x80 11) /\
  fst (jsDecodeV4 AB (repeat x80 10 ++ [x01])) = Returned (64 * 2 ^ 32) /\
  terminal_index (repeat x80 10 ++ [x01]) = Some 10%nat /\
  bigintDecode (repeat x80 10 ++ [x01]) = Some (Thrown "Max Length Reached").
Proof.
  split; [reflexivity |]. split; [repeat constructor |]. repeat split.
Qed.

(** C4, as stated: a buffer whose last byte carries the continuation bit
    makes decode fail with a Malformed error. The fast decoder has no
    such error: on the one-byte buffer FF it returns 0. *)
Lemma truncated_input_is_not_rejected :
  Forall (fun b => continues b = true) [xff] /\
  fst (jsDecodeV4 fresh [xff]) = Returned 0 /\
  forall msg, fst (jsDecodeV4 fresh [xff]) <> Thrown msg.
Proof.
  split; [repeat constructor |]. split; [reflexivity |].
  intros msg H. discriminate H.
Qed.

(** C4, amended: for every buffer of at most 10 bytes that all carry the
    continuation bit, [jsDecodeV4] raises no error and returns a partial
    value: 0 when fewer than five bytes were read, otherwise the low 32
    bits of the number the first five bytes stand for. *)
Theorem truncated_input_partial_value (AB : Views) (input : list byte) :
  Forall (fun b => continues b = true) input ->
  (length input <= 10)%nat ->
  fst (jsDecodeV4 AB input) =
  Returned (if Nat.ltb (length input) 5 then 0
            else leb128 (firstn 5 input) mod 2 ^ 32).
Proof.
  intros Hall Hlen. unfold jsDecodeV4. cbv zeta.
  rewrite decode_with_unterminated by (assumption || lia).
  destruct (Nat.ltb_spec (length input) 5) as [Hshort | Hlong].
  - destruct (pack_low_no_flush input 0 0 (U64_set 0 AB)) as [acc' Hacc'];
      [lia |].
    change (7 * Z.of_nat 0) with 0 in Hacc'. rewrite Hacc'. reflexivity.
  - destruct (pack_flush input (U64_set 0 AB) Hlong) as (acc' & pos' & Hp).
    rewrite Hp. cbn [fst]. unfold U64_get. cbn [lane0 lane1 U64_set].
    f_equal. change (0 / 2 ^ 32 mod 2 ^ 32) with 0. lia.
Qed.

Lemma truncated_input_partial_value_witness :
  fst (jsDecodeV4 fresh [xff; xff; xff; xff; xff; xff]) = Returned 0xFFFFFFFF.
Proof.
  apply (truncated_input_partial_value fresh [xff; xff; xff; xff; xff; xff]).
  - repeat constructor.
  - cbn [length]. lia.
Defined.

(** C5, as stated for the fast decoder: on every input on which decode
    succeeds, it returns the count of bytes consumed alongside the value.
    [jsDecodeV4] succeeds on the encodings 00 and 80 00 with the same
    result, the value 0 alone, having consumed one and two bytes: on the
    inputs it decodes, nothing it returns is the count. *)
Lemma jsDecodeV4_result_hides_count :
  ~ exists consumed : Z -> nat,
      forall input v i,
        fst (jsDecodeV4 fresh input) = Returned v ->
        terminal_index input = Some i ->
        consumed v = S i.
Proof.
  intros [consumed H].
  assert (H1 : consumed 0 = 1%nat)
    by (apply (H [x00] 0 0%nat); reflexivity).
  assert (H2 : consumed 0 = 2%nat)
    by (apply (H [x80; x00] 0 1%nat); reflexivity).
  congruence.
Qed.

(** The same reading holds of the reference decoder: on the inputs it
    decodes, the second component of what it returns is the count. *)
Lemma bigintDecode_result_carries_count :
  exists consumed : Z * nat -> nat,
    forall buffer p i,
      bigintDecode buffer = Some (Returned p) ->
      terminal_index buffer = Some i ->
      consumed p = S i.
Proof.
  exists snd. intros buffer [v n] i H Hi.
  unfold bigintDecode, bigintDecode_fuel in H.
  destruct (bigintDecode_loop_count _ _ _ _ _ _ _ H) as (k & Hk & Hn).
  cbn [skipn] in Hk. rewrite Hi in Hk. injection Hk as <-.
  cbn [snd]. lia.
Qed.

(** C5, amended: for every input on which the reference decoder
    [bigintDecode] succeeds, it returns the number the consumed bytes
    stand for (a number below [2 ^ 70]) together with the count of bytes
    consumed, and the count, at most 10, is the zero-based index of the
    first byte whose continuation bit is clear plus one. *)
Theorem bigintDecode_consumed (buffer : list byte) (v : Z) (n : nat) :
  bigintDecode buffer = Some (Returned (v, n)) ->
  exists i,
    terminal_index buffer = Some i /\ n = S i /\ (n <= 10)%nat /\
    v = leb128 (firstn n buffer) /\ 0 <= v < 2 ^ 70.
Proof.
  intros H. unfold bigintDecode, bigintDecode_fuel in H.
  destruct (bigintDecode_loop_count _ _ _ _ _ _ _ H) as (k & Hk & Hn).
  pose proof (bigintDecode_loop_bound _ _ _ _ _ _ _ H) as Hbound.
  assert (Hv : v = leb128 (firstn n buffer))
    by (apply (bigintDecode_loop_value 11 buffer 0 0 0 v n); auto).
  exists k. cbn [skipn] in Hk.
  split; [exact Hk |]. split; [exact Hn |]. split; [exact Hbound |].
  split; [exact Hv |].
  pose proof (leb128_range (firstn n buffer)) as Hr.
  pose proof (length_firstn n buffer) as Hf.
  assert (Hpow : 2 ^ (7 * Z.of_nat (length (firstn n buffer))) <= 2 ^ 70)
    by (apply Z.pow_le_mono_r; lia).
  lia.
Qed.

Lemma bigintDecode_consumed_witness :
  exists i,
    terminal_index [x80; x01] = Some i /\ 2%nat = S i /\ (2 <= 10)%nat /\
    128 = leb128 (firstn 2 [x80; x01]) /\ 0 <= 128 < 2 ^ 70.
Proof.
  apply (bigintDecode_consumed [x80; x01] 128 2). reflexivity.
Defined.

(** The reference decoder is not confined to 64 bits: ten bytes carry 70. *)
Lemma bigintDecode_seventy_bits :
  bigintDecode (repeat xff 9 ++ [x7f]) = Some (Returned (2 ^ 70 - 1, 10%nat)).
Proof. reflexivity. Qed.

(** The reference decoder always comes back: eleven passes give a result and
    more passes give the same one. *)
Lemma bigintDecode_total (buffer : list byte) :
  exists r, bigintDecode buffer = Some r /\
            forall fuel, (11 <= fuel)%nat -> bigintDecode_fuel fuel buffer = Some r.
Proof.
  apply (bigintDecode_loop_enough 11 buffer 0 0 0); lia.
Qed.

(** C6. When the terminal byte is met at zero-based index [i] (at most
    10, the last index the guard lets through), the accumulator left by
    the bytes [0 .. i] is stored in lane [Number(i > 3)]: in the low word
    when [i <= 3], leaving the high word as it was, and in the high word
    when [i > 3], leaving the flushed low word as it was. *)
Theorem terminal_byte_lane_selection (AB : Views) (input : list byte) (i : nat) :
  terminal_index input = Some i -> (i <= 10)%nat ->
  let st := pack packerV4 (firstn (S i) input) 0 0 (U64_set 0 AB) in
  let acc := fst (fst st) in
  let final := snd (jsDecodeV4 AB input) in
  final = U32_set (if Nat.ltb 3 i then 1 else 0) acc (snd st) /\
  fst (jsDecodeV4 AB input) = Returned (U64_get final) /\
  ((i <= 3)%nat ->
   lane0 final = JS.ToUint32 acc /\ lane1 final = lane1 (snd st)) /\
  ((3 < i)%nat ->
   lane1 final = JS.ToUint32 acc /\ lane0 final = lane0 (snd st)).
Proof.
  intros Hi Hle.
  destruct (terminal_index_split _ _ Hi) as (pre & b & rest & -> & <- & Hpre & Hb).
  rewrite firstn_terminal. unfold jsDecodeV4. cbv zeta.
  rewrite decode_with_terminal by assumption.
  destruct (pack packerV4 (pre ++ [b]) 0 0 (U64_set 0 AB)) as [[acc pos] ab].
  cbn [fst snd]. fold (JS.Number (Nat.ltb 3 (length pre))).
  split; [reflexivity |]. split; [reflexivity |]. split; intros Hcase.
  - rewrite Number_ltb_small by exact Hcase. split; reflexivity.
  - rewrite Number_ltb_large by exact Hcase. split; reflexivity.
Qed.

Lemma terminal_byte_lane_selection_witness :
  let st := pack packerV4 (firstn 6 [xff; xff; xff; xff; xff; x01; x55])
                 0 0 (U64_set 0 fresh) in
  let acc := fst (fst st) in
  let final := snd (jsDecodeV4 fresh [xff; xff; xff; xff; xff; x01; x55]) in
  final = U32_set (if Nat.ltb 3 5 then 1 else 0) acc (snd st) /\
  fst (jsDecodeV4 fresh [xff; xff; xff; xff; xff; x01; x55]) =
    Returned (U64_get final) /\
  ((5 <= 3)%nat ->
   lane0 final = JS.ToUint32 acc /\ lane1 final = lane1 (snd st)) /\
  ((3 < 5)%nat ->
   lane1 final = JS.ToUint32 acc /\ lane0 final = lane0 (snd st)).
Proof.
  apply (terminal_byte_lane_selection fresh
           [xff; xff; xff; xff; xff; x01; x55] 5).
  - reflexivity.
  - lia.
Defined.

(** C7. For every input buffer, [jsDecodeV3] (position set to 3 on the
    flush, else advanced by 7) and [jsDecodeV4] (position set to -4, then
    always advanced by 7) return equal values and leave the shared buffer
    in equal states; [jsDecodeV2] agrees with them, and [jsDecodeV1], which
    allocates its buffer per call, returns the same value as a call of the
    others from any state of the shared buffer. *)
Theorem variants_agree (AB : Views) (input : list byte) :
  jsDecodeV3 AB input = jsDecodeV4 AB input /\
  jsDecodeV2 AB input = jsDecodeV3 AB input /\
  jsDecodeV1 input = fst (jsDecodeV2 AB input) /\
  jsDecodeV1 input = fst (jsDecodeV4 AB input).
Proof.
  assert (H34 : jsDecodeV3 AB input = jsDecodeV4 AB input).
  { unfold jsDecodeV3, jsDecodeV4. cbv zeta.
    apply decode_with_ext. exact packerV3_V4. }
  split; [exact H34 |]. split; [reflexivity |].
  split; [reflexivity |].
  rewrite <- H34. reflexivity.
Qed.

(** C8. For the empty input buffer [jsDecodeV2], [jsDecodeV3] and
    [jsDecodeV4] return 0 without raising an error, whatever the shared
    buffer held before: the view is zeroed and the loop body never runs.
    The one-byte encoding of zero gives the same result. *)
Theorem empty_input_returns_zero (AB : Views) :
  jsDecodeV2 AB [] = (Returned 0, fresh) /\
  jsDecodeV3 AB [] = (Returned 0, fresh) /\
  jsDecodeV4 AB [] = (Returned 0, fresh) /\
  jsDecodeV4 AB [x00] = jsDecodeV4 AB [].
Proof. repeat split. Qed.

(** C9. [jsDecodeV4] is deterministic across sequential calls: whatever
    calls were made before, and whatever the shared buffer held at the
    start, the result for an input and the buffer left behind depend on
    the bytes of that input only. *)
Theorem jsDecodeV4_deterministic
        (calls calls' : list (list byte)) (AB AB' : Views) (input : list byte) :
  jsDecodeV4 (after_calls calls AB) input =
  jsDecodeV4 (after_calls calls' AB') input.
Proof. unfold jsDecodeV4, U64_set. reflexivity. Qed.

(** The reset is what gives C9: the same loop started on a buffer that
    keeps a high lane from an earlier call returns another value. *)
Lemma residue_without_reset :
  snd (jsDecodeV4 fresh [xff; xff; xff; xff; x7f]) = mkViews 0xFFFFFFFF 7 /\
  fst (decode_with packerV4 (mkViews 0xFFFFFFFF 7) [x01]) = Returned (7 * 2 ^ 32 + 1) /\
  fst (jsDecodeV4 (mkViews 0xFFFFFFFF 7) [x01]) = Returned 1.
Proof. repeat split. Qed.

(** C10. For every input whose terminal byte is within the first four
    bytes (index at most 3), the loop of [jsDecodeV4] leaves the high lane
    of the buffer as it found it, whatever it held; after the zeroing at
    entry the high lane is therefore 0 at return, and the value returned,
    the number the consumed bytes stand for, is below [2 ^ 32]. *)
Theorem short_input_low_lane_only (AB : Views) (input : list byte) (i : nat) :
  terminal_index input = Some i -> (i <= 3)%nat ->
  (forall ab, lane1 (snd (decode_with packerV4 ab input)) = lane1 ab) /\
  lane1 (snd (jsDecodeV4 AB input)) = 0 /\
  fst (jsDecodeV4 AB input) = Returned (leb128 (firstn (S i) input)) /\
  0 <= leb128 (firstn (S i) input) < 2 ^ 32.
Proof.
  intros Hi Hle.
  destruct (terminal_index_split _ _ Hi) as (pre & b & rest & -> & <- & Hpre & Hb).
  rewrite firstn_terminal.
  assert (Hlen : (0 + length (pre ++ [b]) <= 4)%nat)
    by (rewrite length_app; cbn [length]; lia).
  assert (Hrun : forall ab,
             decode_with packerV4 ab (pre ++ b :: rest) =
             (Returned (leb128 (pre ++ [b]) + 2 ^ 32 * lane1 ab),
              mkViews (leb128 (pre ++ [b])) (lane1 ab))).
  { intros ab. rewrite decode_with_terminal by (assumption || lia).
    assert (Hp := pack_low_value (pre ++ [b]) 0 0 ab Hlen).
    change (7 * Z.of_nat 0) with 0 in Hp. rewrite Z.pow_0_r in Hp.
    rewrite Hp by lia. cbv zeta.
    rewrite Number_ltb_small by exact Hle.
    unfold U32_set. change (0 =? 0) with true. cbv iota.
    pose proof (leb128_range (pre ++ [b])) as Hr.
    assert (Hpow : 2 ^ (7 * Z.of_nat (length (pre ++ [b]))) <= 2 ^ 28)
      by (apply Z.pow_le_mono_r; lia).
    replace (JS.ToUint32 (0 + 1 * leb128 (pre ++ [b])))
      with (leb128 (pre ++ [b]))
      by (unfold JS.ToUint32; rewrite Z.mod_small; lia).
    reflexivity. }
  split; [intros ab; rewrite Hrun; reflexivity |].
  unfold jsDecodeV4. cbv zeta. rewrite Hrun. cbn [fst snd lane1 U64_set].
  split; [reflexivity |]. split.
  - f_equal. change (0 / 2 ^ 32 mod 2 ^ 32) with 0. lia.
  - pose proof (leb128_range (pre ++ [b])) as Hr.
    assert (Hpow : 2 ^ (7 * Z.of_nat (length (pre ++ [b]))) <= 2 ^ 28)
      by (apply Z.pow_le_mono_r; lia).
    lia.
Qed.

Lemma short_input_low_lane_only_witness :
  (forall ab,
      lane1 (snd (decode_with packerV4 ab [xac; x02; xff])) = lane1 ab) /\
  lane1 (snd (jsDecodeV4 (mkViews 5 9) [xac; x02; xff])) = 0 /\
  fst (jsDecodeV4 (mkViews 5 9) [xac; x02; xff]) =
    Returned (leb128 (firstn 2 [xac; x02; xff])) /\
  0 <= leb128 (firstn 2 [xac; x02; xff]) < 2 ^ 32.
Proof.
  apply (short_input_low_lane_only (mkViews 5 9) [xac; x02; xff] 1).
  - reflexivity.
  - lia.
Defined.

(** * Further properties of the decoders *)

(** ** Leading continuation bytes *)

Lemma leading_continuation : forall (n : nat) (l : list byte),
  (forall i, terminal_index l = Some i -> (n <= i)%nat) ->
  Forall (fun b => continues b = true) (firstn n l).
Proof.
  induction n as [| n IH]; intros l H.
  - constructor.
  - destruct l as [| a l]; [constructor |].
    cbn [firstn]. cbn [terminal_index] in H.
    destruct (continues a) eqn:Ha.
    + constructor; [exact Ha |]. apply IH. intros i Hi.
      specialize (H (S i)). rewrite Hi in H. specialize (H eq_refl). lia.
    + specialize (H O eq_refl). lia.
Qed.

Lemma terminal_index_beyond : forall (n : nat) (l : list byte) i,
  Forall (fun b => continues b = true) (firstn n l) ->
  terminal_index l = Some i -> (n <= i)%nat.
Proof.
  induction n as [| n IH]; intros l i Hall Hi; [lia |].
  destruct l as [| a l]; [discriminate |].
  cbn [firstn] in Hall. inversion Hall as [| ? ? Ha Hrest]; subst.
  cbn [terminal_index] in Hi. rewrite Ha in Hi.
  destruct (terminal_index l) as [j |] eqn:Hj; [| discriminate].
  injection Hi as <-. specialize (IH l j Hrest Hj). lia.
Qed.

Lemma skipn_split (l : list byte) (n : nat) :
  (n < length l)%nat ->
  exists b rest, skipn n l = b :: rest /\ l = firstn n l ++ b :: rest.
Proof.
  intros Hlen. destruct (skipn n l) as [| b rest] eqn:Hsk.
  - apply (f_equal (@length byte)) in Hsk. rewrite length_skipn in Hsk.
    simpl in Hsk. lia.
  - exists b, rest. split; [reflexivity |].
    rewrite <- Hsk. symmetry. apply firstn_skipn.
Qed.

(** ** The reference decoder, outcome by outcome *)

Lemma bigint_step_value (buffer : list byte) (i : nat) (b : byte) :
  element buffer i = Some b ->
  Z.lor (leb128 (firstn i buffer))
        (Z.shiftl (Z.land (u8 b) 0x7F) (7 * Z.of_nat i)) =
  leb128 (firstn (S i) buffer).
Proof.
  intros Hb. destruct (firstn_S_element _ _ _ Hb) as [Hfirst Hlen].
  fold (payload b).
  pose proof (leb128_range (firstn i buffer)) as Hr. rewrite Hlen in Hr.
  rewrite Z.shiftl_mul_pow2, lor_disjoint by lia.
  rewrite Hfirst, leb128_app, Hlen. cbn [leb128]. lia.
Qed.

(** Continuation bytes up to index 9 are consumed one per pass. *)
Lemma bigintDecode_loop_prefix : forall pre fuel buffer i rest,
  skipn i buffer = pre ++ rest ->
  Forall (fun b => continues b = true) pre ->
  (i + length pre <= 10)%nat ->
  bigintDecode_loop (length pre + fuel) buffer
                    (leb128 (firstn i buffer)) (7 * Z.of_nat i) i =
  bigintDecode_loop fuel buffer
                    (leb128 (firstn (i + length pre) buffer))
                    (7 * Z.of_nat (i + length pre)) (i + length pre).
Proof.
  induction pre as [| b pre IH]; intros fuel buffer i rest Hsk Hall Hlen.
  - cbn [length]. rewrite Nat.add_0_r. reflexivity.
  - cbn [length app] in *. inversion Hall as [| ? ? Hb Hpre]; subst.
    destruct (skipn_cons_inv _ _ _ _ Hsk) as [Hel Hsk'].
    cbn [Nat.add bigintDecode_loop]. rewrite Hel.
    rewrite (bigint_step_value _ _ _ Hel).
    replace (Nat.ltb 10 (S i)) with false
      by (symmetry; apply Nat.ltb_ge; lia).
    fold (continues b). rewrite Hb. cbn [negb].
    replace (7 * Z.of_nat i + 7) with (7 * Z.of_nat (S i)) by lia.
    rewrite (IH fuel buffer (S i) rest Hsk' Hpre) by lia.
    replace (S i + length pre)%nat with (i + S (length pre))%nat by lia.
    reflexivity.
Qed.

Lemma element_after (pre : list byte) (b : byte) (rest : list byte) :
  element (pre ++ b :: rest) (length pre) = Some b.
Proof.
  apply (skipn_cons_inv (length pre) (pre ++ b :: rest) b rest).
  rewrite skipn_app, Nat.sub_diag, skipn_all. reflexivity.
Qed.

(** Every list of bytes either has its first terminal byte among the
    first ten, or has none there. *)
Lemma terminal_cases (l : list byte) :
  (exists pre b rest,
      l = pre ++ b :: rest /\ Forall (fun b => continues b = true) pre /\
      continues b = false /\ (length pre <= 9)%nat) \/
  (Forall (fun b => continues b = true) (firstn 10 l) /\
   forall i, terminal_index l = Some i -> (10 <= i)%nat).
Proof.
  destruct (terminal_index l) as [i |] eqn:Hi.
  - destruct (Nat.le_gt_cases i 9) as [Hle | Hgt].
    + left.
      destruct (terminal_index_split _ _ Hi) as (pre & b & rest & -> & <- & Hpre & Hb).
      exists pre, b, rest. auto.
    + right. assert (Hbeyond : forall j, Some i = Some j -> (10 <= j)%nat)
        by (intros j Hj; injection Hj as <-; lia).
      split; [| exact Hbeyond].
      apply leading_continuation. rewrite Hi. exact Hbeyond.
  - right. assert (Hbeyond : forall j, @None nat = Some j -> (10 <= j)%nat)
      by (intros j Hj; discriminate Hj).
    split; [| exact Hbeyond].
    apply leading_continuation. rewrite Hi. exact Hbeyond.
Qed.

Lemma bigintDecode_split (pre : list byte) (b : byte) (rest : list byte) :
  Forall (fun b => continues b = true) pre ->
  continues b = false ->
  (length pre <= 9)%nat ->
  bigintDecode (pre ++ b :: rest) =
  Some (Returned (leb128 (pre ++ [b]), S (length pre))).
Proof.
  intros Hpre Hb Hle.
  unfold bigintDecode, bigintDecode_fuel.
  pose proof (bigintDecode_loop_prefix pre (11 - length pre)
                (pre ++ b :: rest) 0 (b :: rest) eq_refl Hpre) as Hwalk.
  cbn [firstn leb128 Nat.add] in Hwalk.
  replace (length pre + (11 - length pre))%nat with 11%nat in Hwalk by lia.
  change (7 * Z.of_nat 0) with 0 in Hwalk.
  rewrite Hwalk by lia. clear Hwalk.
  destruct (11 - length pre)%nat as [| fuel] eqn:Hfuel; [lia |].
  pose proof (element_after pre b rest) as Hel.
  cbn [bigintDecode_loop]. rewrite Hel.
  rewrite (bigint_step_value _ _ _ Hel).
  replace (Nat.ltb 10 (S (length pre))) with false
    by (symmetry; apply Nat.ltb_ge; lia).
  fold (continues b). rewrite Hb, firstn_terminal. reflexivity.
Qed.

Lemma bigintDecode_eleven (pre : list byte) (b : byte) (rest : list byte) :
  Forall (fun b => continues b = true) pre ->
  length pre = 10%nat ->
  bigintDecode (pre ++ b :: rest) = Some (Thrown "Max Length Reached").
Proof.
  intros Hpre Hlen. unfold bigintDecode, bigintDecode_fuel.
  pose proof (bigintDecode_loop_prefix pre 1 (pre ++ b :: rest) 0 (b :: rest)
                eq_refl Hpre) as Hwalk.
  rewrite Hlen in Hwalk.
  cbn [firstn leb128 Nat.add] in Hwalk.
  change (7 * Z.of_nat 0) with 0 in Hwalk.
  rewrite Hwalk by lia. clear Hwalk.
  pose proof (element_after pre b rest) as Hel. rewrite Hlen in Hel.
  cbn [bigintDecode_loop]. rewrite Hel. reflexivity.
Qed.

(** X1. A terminal byte at index [i <= 9] makes the reference decoder
    return the number the bytes [0 .. i] stand for, with the count
    [i + 1]. *)
Theorem bigintDecode_accepts (buffer : list byte) (i : nat) :
  terminal_index buffer = Some i -> (i <= 9)%nat ->
  bigintDecode buffer =
  Some (Returned (leb128 (firstn (S i) buffer), S i)).
Proof.
  intros Hi Hle.
  destruct (terminal_index_split _ _ Hi) as (pre & b & rest & -> & <- & Hpre & Hb).
  rewrite firstn_terminal. apply bigintDecode_split; assumption.
Qed.

Lemma bigintDecode_accepts_witness :
  bigintDecode [xe5; x8e; x26; xff] =
  Some (Returned (leb128 (firstn 3 [xe5; x8e; x26; xff]), 3%nat)).
Proof.
  apply (bigintDecode_accepts [xe5; x8e; x26; xff] 2).
  - reflexivity.
  - lia.
Defined.

(** X2. A buffer of at most 10 bytes that all carry the continuation
    bit (the empty buffer among them) makes the reference decoder read
    [buffer[length]], which is [undefined], and throw the [TypeError] of
    [BigInt(undefined)]. *)
Theorem bigintDecode_truncated (buffer : list byte) :
  Forall (fun b => continues b = true) buffer ->
  (length buffer <= 10)%nat ->
  bigintDecode buffer =
  Some (Thrown "Cannot convert undefined to a BigInt").
Proof.
  intros Hall Hlen. unfold bigintDecode, bigintDecode_fuel.
  pose proof (bigintDecode_loop_prefix buffer (11 - length buffer)
                buffer 0 []) as Hwalk.
  rewrite app_nil_r in Hwalk. specialize (Hwalk eq_refl Hall).
  cbn [firstn leb128 Nat.add] in Hwalk.
  replace (length buffer + (11 - length buffer))%nat with 11%nat
    in Hwalk by lia.
  change (7 * Z.of_nat 0) with 0 in Hwalk.
  rewrite Hwalk by lia. clear Hwalk.
  destruct (11 - length buffer)%nat as [| fuel] eqn:Hfuel; [lia |].
  cbn [bigintDecode_loop]. unfold element.
  replace (nth_error buffer (length buffer)) with (@None byte)
    by (symmetry; apply nth_error_None; lia).
  reflexivity.
Qed.

Lemma bigintDecode_truncated_witness :
  bigintDecode [x80; xff] =
  Some (Thrown "Cannot convert undefined to a BigInt").
Proof.
  apply (bigintDecode_truncated [x80; xff]).
  - repeat constructor.
  - cbn [length]. lia.
Defined.

(** X3. Ten leading continuation bytes followed by at least one more
    byte make the reference decoder throw "Max Length Reached", whatever
    the eleventh byte is. *)
Theorem bigintDecode_overlong (buffer : list byte) :
  Forall (fun b => continues b = true) (firstn 10 buffer) ->
  (11 <= length buffer)%nat ->
  bigintDecode buffer = Some (Thrown "Max Length Reached").
Proof.
  intros Hall Hlen.
  destruct (skipn_split buffer 10) as (b & rest & _ & Hsplit); [lia |].
  rewrite Hsplit. apply bigintDecode_eleven; [exact Hall |].
  rewrite length_firstn. lia.
Qed.

Lemma bigintDecode_overlong_witness :
  bigintDecode (repeat x80 10 ++ [x00; x01]) =
  Some (Thrown "Max Length Reached").
Proof.
  apply (bigintDecode_overlong (repeat x80 10 ++ [x00; x01])).
  - repeat constructor.
  - cbn [length repeat app]. lia.
Defined.

(** ** Deno's decoder *)

Lemma band_rest (b : byte) : JS.band (u8 b) REST = payload b.
Proof. destruct b; reflexivity. Qed.

Lemma not_msb (b : byte) : JS_not (JS.band (u8 b) MSB) = negb (continues b).
Proof. destruct b; reflexivity. Qed.

Lemma pow_7_succ (k : nat) : 2 ^ (7 * Z.of_nat (S k)) = 2 ^ (7 * Z.of_nat k) * 2 ^ 7.
Proof.
  replace (7 * Z.of_nat (S k)) with (7 * Z.of_nat k + 7) by lia.
  apply Z.pow_add_r; lia.
Qed.

(** Continuation bytes add their groups and move on. *)
Lemma decode_loop_prefix : forall pre remaining buf i k rest decoded,
  skipn i buf = pre ++ rest ->
  Forall (fun b => continues b = true) pre ->
  decode_loop buf (length pre + remaining) i (7 * Z.of_nat k) decoded =
  decode_loop buf remaining (i + length pre)
              (7 * Z.of_nat (k + length pre))
              (decoded + 2 ^ (7 * Z.of_nat k) * leb128 pre).
Proof.
  induction pre as [| b pre IH]; intros remaining buf i k rest decoded Hsk Hall.
  - cbn [length leb128 Nat.add]. rewrite !Nat.add_0_r. f_equal. lia.
  - cbn [length app] in *. inversion Hall as [| ? ? Hb Hpre]; subst.
    destruct (skipn_cons_inv _ _ _ _ Hsk) as [Hel Hsk'].
    cbn [Nat.add decode_loop]. rewrite Hel. cbn [operand].
    rewrite not_msb, Hb. cbn [negb andb].
    rewrite band_rest. unfold Math_pow, SHIFT.
    replace (7 * Z.of_nat k + 7) with (7 * Z.of_nat (S k)) by lia.
    rewrite (IH remaining buf (S i) (S k) rest _ Hsk' Hpre).
    cbn [leb128]. rewrite pow_7_succ.
    replace (S i + length pre)%nat with (i + S (length pre))%nat by lia.
    replace (S k + length pre)%nat with (k + S (length pre))%nat by lia.
    f_equal. ring.
Qed.

Lemma decode_remaining (buf : list byte) (offset : nat) :
  (Nat.min (length buf) (offset + MaxVarIntLen64) - offset)%nat =
  Nat.min (length (skipn offset buf)) 10.
Proof. rewrite length_skipn. unfold MaxVarIntLen64. lia. Qed.

Lemma decode_split (buf : list byte) (offset : nat) pre b rest :
  skipn offset buf = pre ++ b :: rest ->
  Forall (fun b => continues b = true) pre ->
  continues b = false ->
  (length pre <= 9)%nat ->
  decode buf offset =
  if MaxUInt64 <? leb128 (pre ++ [b]) then Thrown "overflow varint"
  else Returned (leb128 (pre ++ [b]), (offset + S (length pre))%nat).
Proof.
  intros Hsk Hpre Hb Hle.
  unfold decode. cbv zeta. rewrite decode_remaining, Hsk.
  rewrite length_app. cbn [length].
  replace (Nat.min (length pre + S (length rest)) 10)
    with (length pre + S (Nat.min (length rest) (9 - length pre)))%nat by lia.
  pose proof (decode_loop_prefix pre (S (Nat.min (length rest) (9 - length pre)))
                buf offset 0 (b :: rest) 0 Hsk Hpre) as Hwalk.
  change (7 * Z.of_nat 0) with 0 in Hwalk. rewrite Hwalk. clear Hwalk.
  assert (Hel : element buf (offset + length pre) = Some b).
  { apply (skipn_cons_inv (offset + length pre) buf b rest).
    rewrite Nat.add_comm, <- skipn_skipn, Hsk.
    rewrite skipn_app, Nat.sub_diag, skipn_all. reflexivity. }
  cbn [decode_loop]. rewrite Hel. cbn [operand].
  rewrite not_msb, Hb, band_rest. cbn [negb andb]. unfold Math_pow.
  rewrite leb128_app. cbn [leb128 Nat.add].
  rewrite Z.pow_0_r.
  replace (0 + 1 * leb128 pre + payload b * 2 ^ (7 * Z.of_nat (length pre)))
    with (leb128 pre + 2 ^ (7 * Z.of_nat (length pre)) * (payload b + 2 ^ 7 * 0))
    by ring.
  replace (offset + S (length pre))%nat with (S (offset + length pre)) by lia.
  reflexivity.
Qed.

Lemma decode_runs_out (buf : list byte) (offset : nat) :
  Forall (fun b => continues b = true) (firstn 10 (skipn offset buf)) ->
  decode buf offset = Thrown "malformed or overflow varint".
Proof.
  intros Hall. unfold decode. cbv zeta. rewrite decode_remaining.
  pose proof (decode_loop_prefix (firstn 10 (skipn offset buf)) 0
                buf offset 0 (skipn 10 (skipn offset buf)) 0) as Hwalk.
  rewrite firstn_skipn in Hwalk. specialize (Hwalk eq_refl Hall).
  rewrite length_firstn, Nat.add_0_r in Hwalk.
  rewrite (Nat.min_comm (length (skipn offset buf)) 10).
  change (7 * Z.of_nat 0) with 0 in Hwalk. rewrite Hwalk. reflexivity.
Qed.

(** X4. When the first byte at or after [offset] whose continuation bit
    is clear lies [i <= 9] bytes after [offset], [decode] returns the
    number the bytes [offset .. offset + i] stand for together with the
    index [offset + i + 1] of the byte after them, unless that number
    exceeds [MaxUInt64], in which case it throws "overflow varint". *)
Theorem decode_terminal (buf : list byte) (offset i : nat) :
  terminal_index (skipn offset buf) = Some i -> (i <= 9)%nat ->
  decode buf offset =
  let value := leb128 (firstn (S i) (skipn offset buf)) in
  if MaxUInt64 <? value then Thrown "overflow varint"
  else Returned (value, (offset + S i)%nat).
Proof.
  intros Hi Hle.
  destruct (terminal_index_split _ _ Hi) as (pre & b & rest & Hsk & <- & Hpre & Hb).
  cbv zeta. rewrite Hsk, firstn_terminal.
  apply (decode_split buf offset pre b rest); assumption.
Qed.

Lemma decode_terminal_witness :
  decode [xff; xac; x02; x7f] 1 =
  let value := leb128 (firstn 2 (skipn 1 [xff; xac; x02; x7f])) in
  if MaxUInt64 <? value then Thrown "overflow varint"
  else Returned (value, (1 + 2)%nat).
Proof.
  apply (decode_terminal [xff; xac; x02; x7f] 1 1).
  - reflexivity.
  - lia.
Defined.

(** X5. When none of the first ten bytes at or after [offset] has its
    continuation bit clear, [decode] throws "malformed or overflow
    varint": this covers the empty buffer, an offset at or past the end,
    a truncated encoding and an encoding longer than ten bytes. *)
Theorem decode_malformed (buf : list byte) (offset : nat) :
  (forall i, terminal_index (skipn offset buf) = Some i -> (10 <= i)%nat) ->
  decode buf offset = Thrown "malformed or overflow varint".
Proof.
  intros Hnone. apply decode_runs_out.
  apply leading_continuation. exact Hnone.
Qed.

Lemma decode_malformed_witness :
  decode [x01; x80; x80] 1 = Thrown "malformed or overflow varint".
Proof.
  apply (decode_malformed [x01; x80; x80] 1).
  intros i Hi. discriminate Hi.
Defined.

(** X6. Whenever [decode] returns, the value is the number the bytes from
    [offset] up to the first one without continuation bit stand for, it
    is at most [MaxUInt64], at most ten bytes were consumed, and the
    returned index is inside the buffer or just past its end. *)
Theorem decode_returned (buf : list byte) (offset : nat) (v : Z) (n : nat) :
  decode buf offset = Returned (v, n) ->
  exists i,
    terminal_index (skipn offset buf) = Some i /\ (i <= 9)%nat /\
    n = (offset + S i)%nat /\ (n <= length buf)%nat /\
    v = leb128 (firstn (S i) (skipn offset buf)) /\ 0 <= v <= MaxUInt64.
Proof.
  intros H.
  destruct (terminal_cases (skipn offset buf))
    as [(pre & b & rest & Hsk & Hpre & Hb & Hle) | [Hall _]].
  - rewrite (decode_split buf offset pre b rest Hsk Hpre Hb Hle) in H.
    pose proof (leb128_range (pre ++ [b])) as Hr.
    destruct (Z.ltb_spec MaxUInt64 (leb128 (pre ++ [b]))) as [Hover | Hfit];
      [discriminate |].
    apply (f_equal (fun o => match o with
                             | Returned p => p
                             | Thrown _ => (0, O)
                             end)) in H.
    cbv beta iota in H.
    assert (Hv : v = leb128 (pre ++ [b])) by congruence.
    assert (Hn : n = (offset + S (length pre))%nat) by congruence.
    exists (length pre).
    assert (Hlen : length (skipn offset buf) = (length pre + S (length rest))%nat)
      by (rewrite Hsk, length_app; cbn [length]; lia).
    rewrite length_skipn in Hlen.
    rewrite Hsk, firstn_terminal, (terminal_index_app pre b rest Hpre Hb).
    repeat split; (reflexivity || assumption || lia).
  - rewrite (decode_runs_out buf offset Hall) in H. discriminate H.
Qed.

Lemma decode_returned_witness :
  exists i,
    terminal_index (skipn 0 [xac; x02]) = Some i /\ (i <= 9)%nat /\
    2%nat = (0 + S i)%nat /\ (2 <= length [xac; x02])%nat /\
    300 = leb128 (firstn (S i) (skipn 0 [xac; x02])) /\ 0 <= 300 <= MaxUInt64.
Proof.
  apply (decode_returned [xac; x02] 0 300 2). reflexivity.
Defined.

(** X7. Decoding at an offset is decoding the rest of the buffer from
    its start, with the returned index moved by the offset; errors are
    the same. *)
Theorem decode_at_offset (buf : list byte) (offset : nat) :
  decode buf offset =
  match decode (skipn offset buf) 0 with
  | Returned (v, n) => Returned (v, (offset + n)%nat)
  | Thrown msg => Thrown msg
  end.
Proof.
  destruct (terminal_cases (skipn offset buf))
    as [(pre & b & rest & Hsk & Hpre & Hb & Hle) | [Hall _]].
  - rewrite (decode_split buf offset pre b rest Hsk Hpre Hb Hle).
    rewrite (decode_split (skipn offset buf) 0 pre b rest Hsk Hpre Hb Hle).
    destruct (MaxUInt64 <? leb128 (pre ++ [b])); reflexivity.
  - rewrite (decode_runs_out buf offset Hall).
    rewrite (decode_runs_out (skipn offset buf) 0 Hall). reflexivity.
Qed.

(** X8. [decode] at offset 0 returns a pair exactly when the reference
    decoder [bigintDecode] returns that pair and the value is at most
    [MaxUInt64]: the two agree on every value that fits 64 bits, and
    [decode] alone rejects the 65- to 70-bit values of a tenth byte. *)
Theorem decode_agrees_with_bigintDecode (buf : list byte) (v : Z) (n : nat) :
  decode buf 0 = Returned (v, n) <->
  bigintDecode buf = Some (Returned (v, n)) /\ v <= MaxUInt64.
Proof.
  destruct (terminal_cases buf)
    as [(pre & b & rest & -> & Hpre & Hb & Hle) | [Hall Hbeyond]].
  - rewrite (decode_split (pre ++ b :: rest) 0 pre b rest eq_refl Hpre Hb Hle).
    rewrite (bigintDecode_split pre b rest Hpre Hb Hle).
    change (0 + S (length pre))%nat with (S (length pre)).
    destruct (Z.ltb_spec MaxUInt64 (leb128 (pre ++ [b]))) as [Hover | Hfit].
    + split; [discriminate |].
      intros [H Hv].
      assert (Hv' : v = leb128 (pre ++ [b])) by congruence. lia.
    + split.
      * intros H. split; [congruence |].
        assert (Hv : v = leb128 (pre ++ [b])) by congruence. lia.
      * intros [H _]. congruence.
  - rewrite (decode_runs_out buf 0 Hall).
    split; [discriminate |].
    intros [H _]. unfold bigintDecode, bigintDecode_fuel in H.
    destruct (bigintDecode_loop_count _ _ _ _ _ _ _ H) as (k & Hk & ->).
    pose proof (bigintDecode_loop_bound _ _ _ _ _ _ _ H) as Hbound.
    cbn [skipn] in Hk. specialize (Hbeyond k Hk). lia.
Qed.

Lemma decode_rejects_seventy_bits :
  bigintDecode (repeat xff 9 ++ [x7f]) = Some (Returned (2 ^ 70 - 1, 10%nat)) /\
  decode (repeat xff 9 ++ [x7f]) 0 = Thrown "overflow varint".
Proof. split; reflexivity. Qed.

(** ** The WebAssembly reader *)

Lemma load_element (memory : list byte) (a k : nat) :
  Wasm.i64_load8_u memory (Z.of_nat (a + k)) =
  option_map u8 (element (skipn a memory) k).
Proof.
  unfold Wasm.i64_load8_u, element.
  rewrite Nat2Z.id, nth_error_skipn.
  destruct (nth_error memory (a + k)); reflexivity.
Qed.

(** One more group or-ed in at bit [7 * k], for [k <= 9]: the part of it
    past bit 63 is lost. *)
Lemma wasm_step_value (bytes : list byte) (k : nat) (b : byte) :
  element bytes k = Some b -> (k <= 9)%nat ->
  Wasm.i64_or (Wasm.i64_shl (Wasm.i64_and (u8 b) 127) (7 * Z.of_nat k))
              (leb128 (firstn k bytes)) =
  leb128 (firstn (S k) bytes) mod 2 ^ 64.
Proof.
  intros Hb Hk. destruct (firstn_S_element _ _ _ Hb) as [Hfirst Hlen].
  unfold Wasm.i64_or, Wasm.i64_shl, Wasm.i64_and. fold (payload b).
  pose proof (leb128_range (firstn k bytes)) as Hr. rewrite Hlen in Hr.
  pose proof (payload_range b) as Hp.
  rewrite (Z.mod_small (7 * Z.of_nat k) 64) by lia.
  rewrite Z.shiftl_mul_pow2 by lia.
  set (n := 7 * Z.of_nat k) in *.
  assert (Hsplit : 2 ^ 64 = 2 ^ (64 - n) * 2 ^ n).
  { rewrite <- Z.pow_add_r by lia. f_equal. lia. }
  assert (Hn : 0 < 2 ^ n) by (apply Z.pow_pos_nonneg; lia).
  assert (Hm : 0 < 2 ^ (64 - n)) by (apply Z.pow_pos_nonneg; lia).
  rewrite Hsplit at 1. rewrite Z.mul_mod_distr_r by lia.
  rewrite Z.lor_comm, lor_disjoint by lia.
  rewrite Hfirst, leb128_app, Hlen. cbn [leb128]. fold n.
  replace (payload b + 2 ^ 7 * 0) with (payload b) by lia.
  pose proof (Z.mod_pos_bound (payload b) (2 ^ (64 - n)) Hm) as Hmod.
  rewrite (Z.div_mod (payload b) (2 ^ (64 - n))) at 2 by lia.
  replace (leb128 (firstn k bytes) +
           2 ^ n * (2 ^ (64 - n) * (payload b / 2 ^ (64 - n)) +
                    payload b mod 2 ^ (64 - n)))
    with (leb128 (firstn k bytes) + payload b mod 2 ^ (64 - n) * 2 ^ n +
          payload b / 2 ^ (64 - n) * 2 ^ 64)
    by (rewrite Hsplit; ring).
  rewrite Z.mod_add by lia.
  symmetry. apply Z.mod_small. rewrite Hsplit. nia.
Qed.

Lemma wasm_continue (b : byte) :
  continues b = true ->
  negb (Wasm.i64_eqz (Wasm.i64_and (u8 b) 128) =? 0) = false.
Proof.
  unfold continues, Wasm.i64_eqz, Wasm.i64_and. intros H.
  apply Z.eqb_eq in H. rewrite H. reflexivity.
Qed.

Lemma wasm_break (b : byte) :
  continues b = false ->
  negb (Wasm.i64_eqz (Wasm.i64_and (u8 b) 128) =? 0) = true.
Proof. destruct b; intros H; try discriminate H; reflexivity. Qed.

(** Continuation bytes at the indices 0 to 8 are consumed one per pass. *)
Lemma read_loop_prefix : forall pre fuel memory a k rest,
  Z.of_nat (length memory) < 2 ^ 32 ->
  skipn k (skipn a memory) = pre ++ rest ->
  Forall (fun b => continues b = true) pre ->
  (k + length pre <= 9)%nat ->
  Wasm.read_loop (length pre + fuel) memory (Z.of_nat (a + k))
                 (leb128 (firstn k (skipn a memory))) (7 * Z.of_nat k) =
  Wasm.read_loop fuel memory (Z.of_nat (a + (k + length pre)))
                 (leb128 (firstn (k + length pre) (skipn a memory)))
                 (7 * Z.of_nat (k + length pre)).
Proof.
  induction pre as [| b pre IH]; intros fuel memory a k rest Hmem Hsk Hall Hlen.
  - cbn [length]. rewrite !Nat.add_0_r. reflexivity.
  - cbn [length app] in *. inversion Hall as [| ? ? Hb Hpre]; subst.
    destruct (skipn_cons_inv _ _ _ _ Hsk) as [Hel Hsk'].
    cbn [Nat.add Wasm.read_loop]. rewrite load_element, Hel. cbn [option_map].
    rewrite (wasm_step_value _ _ _ Hel) by lia.
    rewrite wasm_continue by exact Hb.
    assert (Hin : (a + k < length memory)%nat).
    { assert (Hsome : nth_error memory (a + k) <> None).
      { unfold element in Hel. rewrite nth_error_skipn in Hel.
        rewrite Hel. discriminate. }
      apply nth_error_Some in Hsome. exact Hsome. }
    pose proof (leb128_range (firstn (S k) (skipn a memory))) as Hr.
    destruct (firstn_S_element _ _ _ Hel) as [Hfirst Hlenk].
    assert (Hlen' : length (firstn (S k) (skipn a memory)) = S k)
      by (rewrite Hfirst, length_app, Hlenk; cbn [length]; lia).
    rewrite Hlen' in Hr.
    assert (Hpow : 2 ^ (7 * Z.of_nat (S k)) <= 2 ^ 63)
      by (apply Z.pow_le_mono_r; lia).
    rewrite (Z.mod_small (leb128 (firstn (S k) (skipn a memory)))) by lia.
    unfold Wasm.i64_add, Wasm.i32_add, Wasm.i64_lt_u.
    rewrite (Z.mod_small (7 * Z.of_nat k + 7)) by lia.
    rewrite (Z.mod_small (Z.of_nat (a + k) + 1)) by lia.
    replace (7 * Z.of_nat k + 7 <? 70) with true
      by (symmetry; apply Z.ltb_lt; lia).
    cbn [Z.eqb negb].
    replace (Z.of_nat (a + k) + 1) with (Z.of_nat (a + S k)) by lia.
    replace (7 * Z.of_nat k + 7) with (7 * Z.of_nat (S k)) by lia.
    rewrite (IH fuel memory a (S k) rest Hmem Hsk' Hpre) by lia.
    replace (S k + length pre)%nat with (k + S (length pre))%nat by lia.
    reflexivity.
Qed.

(** Ten passes are enough: the loop leaves by a branch or a trap before
    the eleventh. *)
Lemma read_loop_enough : forall fuel memory ptr v (k : nat),
  (k <= 9)%nat -> (10 - k <= fuel)%nat ->
  exists r, Wasm.read_loop fuel memory ptr v (7 * Z.of_nat k) = Some r /\
            forall fuel', (fuel <= fuel')%nat ->
              Wasm.read_loop fuel' memory ptr v (7 * Z.of_nat k) = Some r.
Proof.
  induction fuel as [| fuel IH]; intros memory ptr v k Hk Hfuel; [lia |].
  cbn [Wasm.read_loop].
  destruct (Wasm.i64_load8_u memory ptr) as [temp |] eqn:Hload.
  - destruct (negb (Wasm.i64_eqz (Wasm.i64_and temp 128) =? 0)) eqn:Hbr.
    + eexists. split; [reflexivity |].
      intros [| fuel'] Hle; [lia |]. cbn [Wasm.read_loop].
      rewrite Hload, Hbr. reflexivity.
    + assert (Hadd : Wasm.i64_add (7 * Z.of_nat k) 7 = 7 * Z.of_nat (S k))
        by (unfold Wasm.i64_add; rewrite Z.mod_small; lia).
      rewrite Hadd.
      destruct (negb (Wasm.i64_lt_u (7 * Z.of_nat (S k)) 70 =? 0)) eqn:Hlt.
      * assert (HSk : (S k <= 9)%nat).
        { unfold Wasm.i64_lt_u in Hlt.
          destruct (Z.ltb_spec (7 * Z.of_nat (S k)) 70); [lia | discriminate]. }
        destruct (IH memory (Wasm.i32_add ptr 1)
                     (Wasm.i64_or (Wasm.i64_shl (Wasm.i64_and temp 127)
                                                (7 * Z.of_nat k)) v)
                     (S k) HSk) as (r & Hr & Hmore); [lia |].
        exists r. split; [exact Hr |].
        intros [| fuel'] Hle; [lia |]. cbn [Wasm.read_loop].
        rewrite Hload, Hbr, Hadd, Hlt. apply Hmore. lia.
      * eexists. split; [reflexivity |].
        intros [| fuel'] Hle; [lia |]. cbn [Wasm.read_loop].
        rewrite Hload, Hbr, Hadd, Hlt. reflexivity.
  - eexists. split; [reflexivity |].
    intros [| fuel'] Hle; [lia |]. cbn [Wasm.read_loop].
    rewrite Hload. reflexivity.
Qed.

Lemma read_loop_from_start (memory : list byte) (ptr : nat) pre rest fuel :
  Z.of_nat (length memory) < 2 ^ 32 ->
  skipn ptr memory = pre ++ rest ->
  Forall (fun b => continues b = true) pre ->
  (length pre <= 9)%nat ->
  Wasm.read_loop (length pre + fuel) memory (Z.of_nat ptr) 0 0 =
  Wasm.read_loop fuel memory (Z.of_nat (ptr + length pre))
                 (leb128 pre) (7 * Z.of_nat (length pre)).
Proof.
  intros Hmem Hsk Hpre Hlen.
  pose proof (read_loop_prefix pre fuel memory ptr 0 rest Hmem Hsk Hpre Hlen)
    as Hwalk.
  rewrite Nat.add_0_r in Hwalk.
  change (firstn 0 (skipn ptr memory)) with (@nil byte) in Hwalk.
  change (leb128 []) with 0 in Hwalk.
  change (7 * Z.of_nat 0) with 0 in Hwalk.
  change (0 + length pre)%nat with (length pre) in Hwalk.
  rewrite Hwalk, Hsk.
  rewrite firstn_app, Nat.sub_diag, firstn_all, app_nil_r. reflexivity.
Qed.

Lemma read_split (memory : list byte) (ptr : nat) pre b rest :
  Z.of_nat (length memory) < 2 ^ 32 ->
  skipn ptr memory = pre ++ b :: rest ->
  Forall (fun b => continues b = true) pre ->
  continues b = false ->
  (length pre <= 9)%nat ->
  Wasm.read memory (Z.of_nat ptr) =
  Some (Wasm.Values (leb128 (pre ++ [b]) mod 2 ^ 64)
                    (Z.of_nat (S (length pre)))).
Proof.
  intros Hmem Hsk Hpre Hb Hle. unfold Wasm.read.
  pose proof (read_loop_from_start memory ptr pre (b :: rest)
                (10 - length pre) Hmem Hsk Hpre Hle) as Hwalk.
  replace (length pre + (10 - length pre))%nat with 10%nat in Hwalk by lia.
  rewrite Hwalk. clear Hwalk.
  destruct (10 - length pre)%nat as [| fuel] eqn:Hfuel; [lia |].
  assert (Hel : element (skipn ptr memory) (length pre) = Some b)
    by (rewrite Hsk; apply element_after).
  assert (Hfirst : firstn (length pre) (skipn ptr memory) = pre)
    by (rewrite Hsk, firstn_app, Nat.sub_diag, firstn_all, app_nil_r;
        reflexivity).
  assert (Hnext : firstn (S (length pre)) (skipn ptr memory) = pre ++ [b])
    by (rewrite Hsk; apply firstn_terminal).
  pose proof (wasm_step_value _ _ _ Hel Hle) as Hstep.
  rewrite Hfirst, Hnext in Hstep.
  cbn [Wasm.read_loop]. rewrite load_element, Hel. cbn [option_map].
  rewrite Hstep.
  rewrite wasm_break by exact Hb.
  unfold Wasm.i64_add, Wasm.i64_div_u, Wasm.i32_wrap_i64.
  rewrite (Z.mod_small (7 * Z.of_nat (length pre) + 7)) by lia.
  replace (7 * Z.of_nat (length pre) + 7)
    with (Z.of_nat (S (length pre)) * 7) by lia.
  rewrite Z.div_mul by lia.
  rewrite (Z.mod_small (Z.of_nat (S (length pre)))) by lia.
  reflexivity.
Qed.

Lemma read_runs_out (memory : list byte) (ptr : nat) :
  Z.of_nat (length memory) < 2 ^ 32 ->
  Forall (fun b => continues b = true) (firstn 10 (skipn ptr memory)) ->
  Wasm.read memory (Z.of_nat ptr) = Some Wasm.Trap.
Proof.
  intros Hmem Hall. unfold Wasm.read.
  destruct (Nat.le_gt_cases (length (skipn ptr memory)) 9) as [Hshort | Hlong].
  - rewrite firstn_all2 in Hall by lia.
    pose proof (read_loop_from_start memory ptr (skipn ptr memory) []
                  (10 - length (skipn ptr memory)) Hmem) as Hwalk.
    rewrite app_nil_r in Hwalk. specialize (Hwalk eq_refl Hall Hshort).
    replace (length (skipn ptr memory) + (10 - length (skipn ptr memory)))%nat
      with 10%nat in Hwalk by lia.
    rewrite Hwalk.
    destruct (10 - length (skipn ptr memory))%nat as [| fuel] eqn:Hfuel;
      [lia |].
    cbn [Wasm.read_loop]. rewrite load_element. unfold element.
    replace (nth_error (skipn ptr memory) (length (skipn ptr memory)))
      with (@None byte) by (symmetry; apply nth_error_None; lia).
    reflexivity.
  - destruct (skipn_split (skipn ptr memory) 9 Hlong)
      as (b & rest & Hsk & Hsplit).
    assert (Hlen9 : length (firstn 9 (skipn ptr memory)) = 9%nat)
      by (rewrite length_firstn; lia).
    rewrite Hsplit in Hall. rewrite firstn_app, Hlen9 in Hall.
    apply Forall_app in Hall. destruct Hall as [Hpre Hb].
    rewrite firstn_all2 in Hpre by lia.
    change (firstn (10 - 9) (b :: rest)) with [b] in Hb.
    inversion Hb as [| ? ? Hb' _]; subst.
    pose proof (read_loop_from_start memory ptr
                  (firstn 9 (skipn ptr memory)) (b :: rest) 1 Hmem Hsplit Hpre)
      as Hwalk.
    rewrite Hlen9 in Hwalk. specialize (Hwalk (Nat.le_refl 9)).
    change (9 + 1)%nat with 10%nat in Hwalk. rewrite Hwalk.
    destruct (skipn_cons_inv _ _ _ _ Hsk) as [Hel _].
    cbn [Wasm.read_loop]. rewrite load_element, Hel. cbn [option_map].
    rewrite wasm_continue by exact Hb'.
    reflexivity.
Qed.

(** X9. With the memory smaller than 4 GiB, when the first byte at or
    after address [ptr] whose continuation bit is clear lies [i <= 9]
    bytes after [ptr], [$read] returns the low 64 bits of the number the
    bytes [ptr .. ptr + i] stand for, and the count [i + 1]. *)
Theorem read_terminal (memory : list byte) (ptr i : nat) :
  Z.of_nat (length memory) < 2 ^ 32 ->
  terminal_index (skipn ptr memory) = Some i -> (i <= 9)%nat ->
  Wasm.read memory (Z.of_nat ptr) =
  Some (Wasm.Values (leb128 (firstn (S i) (skipn ptr memory)) mod 2 ^ 64)
                    (Z.of_nat (S i))).
Proof.
  intros Hmem Hi Hle.
  destruct (terminal_index_split _ _ Hi) as (pre & b & rest & Hsk & <- & Hpre & Hb).
  rewrite Hsk, firstn_terminal.
  apply (read_split memory ptr pre b rest); assumption.
Qed.

Lemma read_terminal_witness :
  Wasm.read [x00; x00; xac; x02; x55] (Z.of_nat 2) =
  Some (Wasm.Values
          (leb128 (firstn 2 (skipn 2 [x00; x00; xac; x02; x55])) mod 2 ^ 64)
          (Z.of_nat 2)).
Proof.
  apply (read_terminal [x00; x00; xac; x02; x55] 2 1).
  - cbn [length]. lia.
  - reflexivity.
  - lia.
Defined.

(** X10. With the memory smaller than 4 GiB, when none of the first ten
    bytes at or after [ptr] has its continuation bit clear, [$read]
    traps and returns no values. *)
Theorem read_traps (memory : list byte) (ptr : nat) :
  Z.of_nat (length memory) < 2 ^ 32 ->
  (forall i, terminal_index (skipn ptr memory) = Some i -> (10 <= i)%nat) ->
  Wasm.read memory (Z.of_nat ptr) = Some Wasm.Trap.
Proof.
  intros Hmem Hnone. apply read_runs_out; [exact Hmem |].
  apply leading_continuation. exact Hnone.
Qed.

Lemma read_traps_witness :
  Wasm.read (repeat x80 10 ++ repeat x00 (Z.to_nat 65526)) (Z.of_nat 0) =
  Some Wasm.Trap.
Proof.
  apply (read_traps (repeat x80 10 ++ repeat x00 (Z.to_nat 65526)) 0).
  - rewrite length_app, !repeat_length. lia.
  - intros i Hi. vm_compute in Hi. injection Hi as <-. lia.
Defined.

(** X11. With the memory smaller than 4 GiB, [$read] at [ptr] returns
    values exactly when the reference decoder [bigintDecode] succeeds on
    the bytes of the memory from [ptr] on, with the same count and the
    value reduced modulo [2 ^ 64]; in every other case it traps. *)
Theorem read_agrees_with_bigintDecode (memory : list byte) (ptr : nat) :
  Z.of_nat (length memory) < 2 ^ 32 ->
  match bigintDecode (skipn ptr memory) with
  | Some (Returned (v, n)) =>
      Wasm.read memory (Z.of_nat ptr) =
      Some (Wasm.Values (v mod 2 ^ 64) (Z.of_nat n))
  | _ => Wasm.read memory (Z.of_nat ptr) = Some Wasm.Trap
  end.
Proof.
  intros Hmem.
  destruct (terminal_cases (skipn ptr memory))
    as [(pre & b & rest & Hsk & Hpre & Hb & Hle) | [Hall Hbeyond]].
  - rewrite Hsk. rewrite (bigintDecode_split pre b rest Hpre Hb Hle).
    apply (read_split memory ptr pre b rest); assumption.
  - pose proof (read_runs_out memory ptr Hmem Hall) as Htrap.
    destruct (bigintDecode (skipn ptr memory)) as [[[v n] | msg] |] eqn:Hdec;
      try exact Htrap.
    unfold bigintDecode, bigintDecode_fuel in Hdec.
    destruct (bigintDecode_loop_count _ _ _ _ _ _ _ Hdec) as (k & Hk & ->).
    pose proof (bigintDecode_loop_bound _ _ _ _ _ _ _ Hdec) as Hbound.
    cbn [skipn] in Hk. specialize (Hbeyond k Hk). lia.
Qed.

Lemma read_agrees_with_bigintDecode_witness :
  match bigintDecode (skipn 1 [x07; xff; xff; x03]) with
  | Some (Returned (v, n)) =>
      Wasm.read [x07; xff; xff; x03] (Z.of_nat 1) =
      Some (Wasm.Values (v mod 2 ^ 64) (Z.of_nat n))
  | _ => Wasm.read [x07; xff; xff; x03] (Z.of_nat 1) = Some Wasm.Trap
  end.
Proof.
  apply (read_agrees_with_bigintDecode [x07; xff; xff; x03] 1).
  cbn [length]. lia.
Defined.

(** ** The two-lane decoders, outcome by outcome *)

Lemma decode_with_thrown packer ab pre b rest :
  Forall (fun b => continues b = true) pre ->
  length pre = 11%nat ->
  decode_with packer ab (pre ++ b :: rest) =
  let '(_, _, ab') := pack packer pre 0 0 ab in
  (Thrown "Maximum size reached", ab').
Proof.
  intros Hpre Hlen. unfold decode_with. cbv zeta.
  rewrite for_loop_overlong by assumption.
  destruct (pack packer pre 0 0 ab) as [[acc' pos'] ab'].
  reflexivity.
Qed.

(** The bytes after the first terminal byte play no part. *)
Lemma decode_with_stops packer ab (input : list byte) (i : nat) :
  terminal_index input = Some i ->
  decode_with packer ab input = decode_with packer ab (firstn (S i) input).
Proof.
  intros Hi.
  destruct (terminal_index_split _ _ Hi) as (pre & b & rest & -> & <- & Hpre & Hb).
  rewrite firstn_terminal.
  destruct (Nat.le_gt_cases (length pre) 10) as [Hle | Hgt].
  - rewrite decode_with_terminal by assumption.
    change (pre ++ [b]) with (pre ++ b :: []) at 2.
    rewrite decode_with_terminal by assumption. reflexivity.
  - assert (Hfirst : Forall (fun b => continues b = true) (firstn 11 pre)).
    { rewrite <- (firstn_skipn 11 pre) in Hpre.
      apply Forall_app in Hpre. apply Hpre. }
    assert (Hlen : length (firstn 11 pre) = 11%nat)
      by (rewrite length_firstn; lia).
    rewrite <- (firstn_skipn 11 pre).
    rewrite <- !app_assoc.
    destruct (skipn 11 pre ++ b :: rest) as [| x tl] eqn:Htail;
      [destruct (skipn 11 pre); discriminate |].
    destruct (skipn 11 pre ++ [b]) as [| y tl'] eqn:Htail';
      [destruct (skipn 11 pre); discriminate |].
    rewrite !decode_with_thrown by assumption. reflexivity.
Qed.

(** X12. For every input with a byte whose continuation bit is clear,
    each of the four decoders gives the result it gives on the input cut
    after the first such byte, and leaves the shared buffer in the same
    state: bytes after the terminal byte are never looked at. *)
Theorem trailing_bytes_ignored (AB : Views) (input : list byte) (i : nat) :
  terminal_index input = Some i ->
  jsDecodeV1 input = jsDecodeV1 (firstn (S i) input) /\
  jsDecodeV2 AB input = jsDecodeV2 AB (firstn (S i) input) /\
  jsDecodeV3 AB input = jsDecodeV3 AB (firstn (S i) input) /\
  jsDecodeV4 AB input = jsDecodeV4 AB (firstn (S i) input).
Proof.
  intros Hi. unfold jsDecodeV1, jsDecodeV2, jsDecodeV3, jsDecodeV4. cbv zeta.
  rewrite !(decode_with_stops _ _ input i Hi). repeat split.
Qed.

Lemma trailing_bytes_ignored_witness :
  jsDecodeV1 [xac; x02; xff; x01] = jsDecodeV1 (firstn 2 [xac; x02; xff; x01]) /\
  jsDecodeV2 fresh [xac; x02; xff; x01] =
    jsDecodeV2 fresh (firstn 2 [xac; x02; xff; x01]) /\
  jsDecodeV3 fresh [xac; x02; xff; x01] =
    jsDecodeV3 fresh (firstn 2 [xac; x02; xff; x01]) /\
  jsDecodeV4 fresh [xac; x02; xff; x01] =
    jsDecodeV4 fresh (firstn 2 [xac; x02; xff; x01]).
Proof.
  apply (trailing_bytes_ignored fresh [xac; x02; xff; x01] 1). reflexivity.
Defined.

Lemma terminal_index_none : forall (l : list byte),
  terminal_index l = None -> Forall (fun b => continues b = true) l.
Proof.
  intros l H. rewrite <- (firstn_all l). apply leading_continuation.
  intros i Hi. rewrite H in Hi. discriminate.
Qed.

(** X13. [jsDecodeV4] throws exactly when the input has at least twelve
    bytes of which the first eleven carry the continuation bit, and the
    message then is "Maximum size reached"; on every other input,
    truncated and empty ones included, it returns a value. *)
Theorem jsDecodeV4_throws_iff (AB : Views) (input : list byte) (msg : string) :
  fst (jsDecodeV4 AB input) = Thrown msg <->
  msg = "Maximum size reached"%string /\ (12 <= length input)%nat /\
  Forall (fun b => continues b = true) (firstn 11 input).
Proof.
  assert (Hthrow : (12 <= length input)%nat ->
                   Forall (fun b => continues b = true) (firstn 11 input) ->
                   fst (jsDecodeV4 AB input) = Thrown "Maximum size reached").
  { intros Hlen Hall. unfold jsDecodeV4. cbv zeta.
    destruct (skipn_split input 11) as (b & rest & _ & Hsplit); [lia |].
    rewrite Hsplit at 1. apply decode_with_overlong; [exact Hall |].
    rewrite length_firstn. lia. }
  split.
  - intros H.
    destruct (terminal_index input) as [i |] eqn:Hi.
    + destruct (Nat.le_gt_cases i 10) as [Hle | Hgt].
      * destruct (terminal_index_split _ _ Hi)
          as (pre & b & rest & -> & <- & Hpre & Hb).
        unfold jsDecodeV4 in H. cbv zeta in H.
        rewrite decode_with_terminal in H by assumption.
        destruct (pack packerV4 (pre ++ [b]) 0 0 (U64_set 0 AB)) as [[? ?] ?].
        discriminate H.
      * assert (Hall : Forall (fun b => continues b = true) (firstn 11 input)).
        { apply leading_continuation. intros j Hj. rewrite Hi in Hj.
          injection Hj as <-. lia. }
        assert (Hlen : (12 <= length input)%nat).
        { destruct (terminal_index_split _ _ Hi)
            as (pre & b & rest & -> & <- & _ & _).
          rewrite length_app. cbn [length]. lia. }
        rewrite (Hthrow Hlen Hall) in H. injection H as <-. auto.
    + pose proof (terminal_index_none _ Hi) as Hall.
      destruct (Nat.le_gt_cases (length input) 11) as [Hle | Hgt].
      * unfold jsDecodeV4 in H. cbv zeta in H.
        rewrite decode_with_unterminated in H by assumption.
        destruct (pack packerV4 input 0 0 (U64_set 0 AB)) as [[? ?] ?].
        discriminate H.
      * assert (Hall11 : Forall (fun b => continues b = true) (firstn 11 input)).
        { rewrite <- (firstn_skipn 11 input) in Hall.
          apply Forall_app in Hall. apply Hall. }
        rewrite (Hthrow Hgt Hall11) in H. injection H as <-. auto.
  - intros (-> & Hlen & Hall). apply Hthrow; assumption.
Qed.

(** ** The range of the result *)

Lemma U32_set_range (k v : Z) (ab : Views) :
  lanes_in_range ab -> lanes_in_range (U32_set k v ab).
Proof.
  intros [H0 H1]. unfold U32_set, lanes_in_range.
  pose proof (ToUint32_range v) as Hv.
  destruct (k =? 0); [cbn [lane0 lane1]; auto |].
  destruct (k =? 1); cbn [lane0 lane1]; auto.
Qed.

Lemma packerV4_range (byte acc pos : Z) (ab : Views) :
  lanes_in_range ab -> lanes_in_range (snd (packerV4 byte acc pos ab)).
Proof.
  intros Hab. unfold packerV4. destruct (pos =? 28); cbn [snd].
  - apply U32_set_range. exact Hab.
  - exact Hab.
Qed.

Lemma for_loop_range (input : list byte) : forall remaining i acc pos ab,
  lanes_in_range ab ->
  match for_loop packerV4 input remaining i acc pos ab with
  | Finished ab' => lanes_in_range ab'
  | Threw _ ab' => lanes_in_range ab'
  end.
Proof.
  induction remaining as [| r IH]; intros i acc pos ab Hab; cbn [for_loop].
  - exact Hab.
  - unfold iteration. destruct (Nat.eqb i 11); [exact Hab |].
    pose proof (packerV4_range (operand (element input i)) acc pos ab Hab) as Hp.
    destruct (packerV4 (operand (element input i)) acc pos ab)
      as [[acc' pos'] ab'].
    cbn [snd] in Hp.
    destruct (negb (JS.band (operand (element input i)) 128 =? 128)).
    + apply U32_set_range. exact Hp.
    + apply IH. exact Hp.
Qed.

(** X14. Whatever the shared buffer held before the call, a value
    returned by [jsDecodeV4] is an unsigned 64-bit number. *)
Theorem jsDecodeV4_returns_u64 (AB : Views) (input : list byte) (v : Z) :
  fst (jsDecodeV4 AB input) = Returned v -> 0 <= v < 2 ^ 64.
Proof.
  unfold jsDecodeV4, decode_with. cbv zeta. intros H.
  assert (Hzero : lanes_in_range (U64_set 0 AB))
    by (unfold lanes_in_range, U64_set; cbn [lane0 lane1]; split; split;
        (discriminate || reflexivity)).
  pose proof (for_loop_range input (length input) 0 0 0 _ Hzero) as Hr.
  destruct (for_loop packerV4 input (length input) 0 0 0 (U64_set 0 AB))
    as [ab' | msg ab']; [| discriminate H].
  cbn [fst] in H. injection H as <-.
  destruct Hr as [H0 H1]. unfold U64_get. lia.
Qed.

Lemma jsDecodeV4_returns_u64_witness : 0 <= 2 ^ 64 - 1 < 2 ^ 64.
Proof.
  apply (jsDecodeV4_returns_u64 (mkViews (-1) (2 ^ 40))
           (repeat xff 9 ++ [x01]) (2 ^ 64 - 1)).
  reflexivity.
Defined.

(** ** Encodings of five to ten bytes *)

Lemma shl_small (x pos : Z) :
  0 <= x < 2 ^ 7 -> 0 <= pos <= 24 -> JS.shl x pos = x * 2 ^ pos.
Proof.
  intros Hx Hpos. unfold JS.shl.
  rewrite (ToInt32_small x) by lia.
  assert (Hcount : Z.land (JS.ToUint32 pos) 31 = pos).
  { unfold JS.ToUint32. rewrite (Z.mod_small pos) by lia.
    change 31 with (Z.ones 5). rewrite Z.land_ones by lia.
    apply Z.mod_small. change (2 ^ 5) with 32. lia. }
  rewrite Hcount, Z.shiftl_mul_pow2 by lia.
  apply ToInt32_small.
  assert (2 ^ pos <= 2 ^ 24) by (apply Z.pow_le_mono_r; lia).
  assert (0 < 2 ^ pos) by (apply Z.pow_pos_nonneg; lia).
  change (2 ^ 31) with (2 ^ 7 * 2 ^ 24). nia.
Qed.

(** After the flush the next four bytes fill the accumulator above the
    three reseeded bits. *)
Lemma pack_high_value : forall bytes acc j ab,
  (j + length bytes <= 4)%nat ->
  0 <= acc < 2 ^ (3 + 7 * Z.of_nat j) ->
  pack packerV4 bytes acc (3 + 7 * Z.of_nat j) ab =
  (acc + 2 ^ (3 + 7 * Z.of_nat j) * leb128 bytes,
   3 + 7 * Z.of_nat (j + length bytes), ab).
Proof.
  induction bytes as [| b bytes IH]; intros acc j ab Hlen Hacc;
    cbn [pack length leb128] in *.
  - rewrite Nat.add_0_r. f_equal. f_equal. lia.
  - unfold packerV4 at 1.
    replace (3 + 7 * Z.of_nat j =? 28) with false
      by (symmetry; apply Z.eqb_neq; lia).
    pose proof (payload_range b) as Hb.
    set (pos := 3 + 7 * Z.of_nat j) in *.
    assert (Hpow : 2 ^ pos <= 2 ^ 24) by (apply Z.pow_le_mono_r; lia).
    assert (Hpos : 0 < 2 ^ pos) by (apply Z.pow_pos_nonneg; lia).
    rewrite band_payload, shl_small by lia.
    unfold JS.bor.
    rewrite (ToInt32_small acc) by lia.
    rewrite (ToInt32_small (payload b * 2 ^ pos))
      by (change (2 ^ 31) with (2 ^ 7 * 2 ^ 24); nia).
    rewrite lor_disjoint by lia.
    rewrite ToInt32_small
      by (change (2 ^ 31) with (2 ^ 7 * 2 ^ 24); nia).
    assert (Hstep : 2 ^ (3 + 7 * Z.of_nat (S j)) = 2 ^ pos * 2 ^ 7).
    { replace (3 + 7 * Z.of_nat (S j)) with (pos + 7) by lia.
      apply Z.pow_add_r; lia. }
    replace (pos + 7) with (3 + 7 * Z.of_nat (S j)) by lia.
    rewrite IH by (lia || (rewrite Hstep; nia)).
    rewrite Hstep.
    replace (S j + length bytes)%nat with (j + S (length bytes))%nat by lia.
    f_equal. f_equal. ring.
Qed.

(** At position 31 the shift [<<] keeps the lowest bit of the group. *)
Lemma shl_31 (b : byte) :
  exists t, JS.shl (JS.band (u8 b) 0x7F) 31 = (payload b + 2 * t) * 2 ^ 31.
Proof.
  exists ((JS.shl (JS.band (u8 b) 0x7F) 31 / 2 ^ 31 - payload b) / 2).
  destruct b; reflexivity.
Qed.

Lemma top_bit_value (b : byte) (acc : Z) :
  0 <= acc < 2 ^ 31 ->
  JS.ToUint32 (JS.bor acc (JS.shl (JS.band (u8 b) 0x7F) 31)) =
  (acc + 2 ^ 31 * payload b) mod 2 ^ 32.
Proof.
  intros Hacc. unfold JS.bor. rewrite ToUint32_ToInt32.
  destruct (shl_31 b) as [t Ht]. rewrite Ht.
  unfold JS.shl in Ht. rewrite <- Ht, ToInt32_idem, Ht.
  rewrite (ToInt32_small acc) by lia.
  rewrite lor_disjoint by lia.
  unfold JS.ToUint32.
  replace (acc + (payload b + 2 * t) * 2 ^ 31)
    with (acc + 2 ^ 31 * payload b + t * 2 ^ 32) by lia.
  apply Z.mod_add. lia.
Qed.

Lemma reseed_range (b : byte) : 0 <= Z.land (Z.shiftr (u8 b) 3) 0x07 < 8.
Proof. destruct b; vm_compute; split; congruence. Qed.

(** The bytes after the fifth, at most five of them, give the high word:
    the reseeded bits below eight times their groups, cut to 32 bits. *)
Lemma pack_high_word (tail : list byte) (r : Z) (ab : Views) :
  0 <= r < 8 -> (length tail <= 5)%nat ->
  exists acc' pos',
    pack packerV4 tail r 3 ab = (acc', pos', ab) /\
    JS.ToUint32 acc' = (r + 8 * leb128 tail) mod 2 ^ 32.
Proof.
  intros Hr Hlen.
  assert (Hfour : forall l, (length l <= 4)%nat ->
            pack packerV4 l r 3 ab =
            (r + 8 * leb128 l, 3 + 7 * Z.of_nat (length l), ab) /\
            0 <= r + 8 * leb128 l < 2 ^ 31).
  { intros l Hl. pose proof (pack_high_value l r 0 ab) as Hp.
    change (3 + 7 * Z.of_nat 0) with 3 in Hp. change (2 ^ 3) with 8 in Hp.
    split; [apply Hp; cbn [Nat.add]; lia |].
    pose proof (leb128_range l) as Hrange.
    assert (2 ^ (7 * Z.of_nat (length l)) <= 2 ^ 28)
      by (apply Z.pow_le_mono_r; lia).
    change (2 ^ 31) with (8 * 2 ^ 28). lia. }
  destruct (Nat.le_gt_cases (length tail) 4) as [Hshort | Hfive].
  - destruct (Hfour tail Hshort) as [Hp Hrange].
    eexists. eexists. split; [exact Hp |].
    unfold JS.ToUint32. reflexivity.
  - destruct tail as [| t0 [| t1 [| t2 [| t3 [| t4 [| t5 tail]]]]]];
      cbn [length] in *; try lia.
    change [t0; t1; t2; t3; t4] with ([t0; t1; t2; t3] ++ [t4]).
    rewrite pack_app.
    destruct (Hfour [t0; t1; t2; t3]) as [Hp Hrange]; [cbn [length]; lia |].
    rewrite Hp. cbn [pack length]. unfold packerV4.
    change (3 + 7 * Z.of_nat 4 =? 28) with false. cbv iota.
    eexists. eexists. split; [reflexivity |].
    rewrite top_bit_value by exact Hrange.
    rewrite leb128_app. cbn [length leb128].
    change (7 * Z.of_nat 4) with 28.
    f_equal. lia.
Qed.

Lemma mod_eq_close (a b m : Z) :
  0 < m -> - m < a - b < m -> a mod m = b mod m -> a = b.
Proof.
  intros Hm Hab H.
  pose proof (Z.div_mod a m) as Ha. pose proof (Z.div_mod b m) as Hb.
  assert (Hq : a - b = m * (a / m - b / m)) by lia.
  assert (a / m - b / m = 0) by nia.
  lia.
Qed.

Lemma payload_split (b : byte) :
  payload b = payload b mod 16 + 16 * Z.land (Z.shiftr (u8 b) 4) 0x07 /\
  0 <= Z.land (Z.shiftr (u8 b) 4) 0x07 < 8.
Proof. destruct b; vm_compute; repeat split; congruence. Qed.

(** The two lanes after an encoding of five to ten bytes. *)
Lemma long_lanes (AB : Views) pre b rest b0 b1 b2 b3 b4 tail :
  Forall (fun b => continues b = true) pre ->
  continues b = false ->
  pre ++ [b] = b0 :: b1 :: b2 :: b3 :: b4 :: tail ->
  (length tail <= 5)%nat ->
  fst (jsDecodeV4 AB (pre ++ b :: rest)) =
  Returned
    (leb128 [b0; b1; b2; b3; b4] mod 2 ^ 32 +
     2 ^ 32 * ((Z.land (Z.shiftr (u8 b4) 3) 0x07 + 8 * leb128 tail)
               mod 2 ^ 32)).
Proof.
  intros Hpre Hb Hl Htail.
  assert (Hlen : length (pre ++ [b]) = (5 + length tail)%nat)
    by (rewrite Hl; reflexivity).
  rewrite length_app in Hlen. cbn [length] in Hlen.
  unfold jsDecodeV4. cbv zeta.
  rewrite decode_with_terminal by (assumption || lia).
  rewrite Number_ltb_large by lia. rewrite Hl.
  change (b0 :: b1 :: b2 :: b3 :: b4 :: tail)
    with ([b0; b1; b2; b3] ++ b4 :: tail).
  rewrite pack_app.
  assert (Hp := pack_low_value [b0; b1; b2; b3] 0 0 (U64_set 0 AB)).
  cbn [length] in Hp.
  change (7 * Z.of_nat (0 + 4)) with 28 in Hp.
  change (7 * Z.of_nat 0) with 0 in Hp.
  rewrite Z.pow_0_r in Hp.
  rewrite Hp by lia. clear Hp.
  pose proof (leb128_range [b0; b1; b2; b3]) as Hlow.
  cbn [length] in Hlow. change (7 * Z.of_nat 4) with 28 in Hlow.
  cbn [pack]. rewrite flush_value by lia.
  destruct (pack_high_word tail (Z.land (Z.shiftr (u8 b4) 3) 7)
              (mkViews ((0 + 1 * leb128 [b0; b1; b2; b3] + 2 ^ 28 * payload b4)
                          mod 2 ^ 32) (lane1 (U64_set 0 AB)))
              (reseed_range b4))
    as (acc' & pos' & Hpack & Hhigh); [lia |].
  rewrite Hpack. cbv zeta.
  unfold U32_set. change (1 =? 0) with false. change (1 =? 1) with true.
  cbv iota. cbn [fst lane0 lane1]. unfold U64_get. cbn [lane0 lane1].
  rewrite Hhigh. f_equal. f_equal.
  change [b0; b1; b2; b3; b4] with ([b0; b1; b2; b3] ++ [b4]).
  rewrite leb128_app.
  change (leb128 [b4]) with (payload b4 + 2 ^ 7 * 0).
  change (7 * Z.of_nat (length [b0; b1; b2; b3])) with 28. f_equal. lia.
Qed.

(** When those two lanes are the number the encoding stands for. *)
Lemma long_correct (AB : Views) pre b rest b0 b1 b2 b3 b4 tail :
  Forall (fun b => continues b = true) pre ->
  continues b = false ->
  pre ++ [b] = b0 :: b1 :: b2 :: b3 :: b4 :: tail ->
  (length tail <= 5)%nat ->
  fst (jsDecodeV4 AB (pre ++ b :: rest)) =
    Returned (leb128 (pre ++ [b]) mod 2 ^ 64) <->
  Z.land (Z.shiftr (u8 b4) 3) 0x07 = Z.land (Z.shiftr (u8 b4) 4) 0x07.
Proof.
  intros Hpre Hb Hl Htl.
  rewrite (long_lanes AB pre b rest b0 b1 b2 b3 b4 tail Hpre Hb Hl Htl).
  rewrite Hl.
  set (r := Z.land (Z.shiftr (u8 b4) 3) 7).
  set (h := Z.land (Z.shiftr (u8 b4) 4) 7).
  pose proof (reseed_range b4) as Hr. fold r in Hr.
  destruct (payload_split b4) as [Hsplit Hh]. fold h in Hsplit, Hh.
  pose proof (leb128_range [b0; b1; b2; b3]) as Hlow.
  cbn [length] in Hlow. change (7 * Z.of_nat 4) with 28 in Hlow.
  pose proof (leb128_range tail) as Htail.
  set (T := leb128 tail) in *. set (L := leb128 [b0; b1; b2; b3]) in *.
  assert (Hlo : 0 <= payload b4 mod 16 < 16) by (apply Z.mod_pos_bound; lia).
  set (lo := payload b4 mod 16) in *.
  assert (Hfive : leb128 [b0; b1; b2; b3; b4] mod 2 ^ 32 = L + 2 ^ 28 * lo).
  { change [b0; b1; b2; b3; b4] with ([b0; b1; b2; b3] ++ [b4]).
    rewrite leb128_app. fold L.
    change (leb128 [b4]) with (payload b4 + 2 ^ 7 * 0).
    change (7 * Z.of_nat (length [b0; b1; b2; b3])) with 28. rewrite Hsplit.
    replace (L + 2 ^ 28 * (lo + 16 * h + 2 ^ 7 * 0))
      with (L + 2 ^ 28 * lo + h * 2 ^ 32) by lia.
    rewrite Z.mod_add by lia. apply Z.mod_small. lia. }
  assert (Hall : leb128 (b0 :: b1 :: b2 :: b3 :: b4 :: tail) mod 2 ^ 64 =
                 L + 2 ^ 28 * lo + 2 ^ 32 * ((h + 8 * T) mod 2 ^ 32)).
  { change (b0 :: b1 :: b2 :: b3 :: b4 :: tail)
      with ([b0; b1; b2; b3] ++ b4 :: tail).
    rewrite leb128_app. fold L.
    change (leb128 (b4 :: tail)) with (payload b4 + 2 ^ 7 * T).
    change (7 * Z.of_nat (length [b0; b1; b2; b3])) with 28. rewrite Hsplit.
    pose proof (Z.div_mod (h + 8 * T) (2 ^ 32)) as Hdm.
    pose proof (Z.mod_pos_bound (h + 8 * T) (2 ^ 32)) as Hmb.
    replace (L + 2 ^ 28 * (lo + 16 * h + 2 ^ 7 * T))
      with (L + 2 ^ 28 * lo + 2 ^ 32 * ((h + 8 * T) mod 2 ^ 32) +
            (h + 8 * T) / 2 ^ 32 * 2 ^ 64) by lia.
    rewrite Z.mod_add by lia. apply Z.mod_small. lia. }
  rewrite Hfive, Hall.
  split.
  - intros H.
    apply (f_equal (fun o => match o with Returned v => v | Thrown _ => 0 end))
      in H.
    cbv beta iota in H.
    assert (Hmod : (r + 8 * T) mod 2 ^ 32 = (h + 8 * T) mod 2 ^ 32) by lia.
    apply (mod_eq_close (r + 8 * T) (h + 8 * T) (2 ^ 32)) in Hmod; lia.
  - intros ->. reflexivity.
Qed.

(** An encoding of one to four bytes is decoded in the low lane alone. *)
Lemma short_value (AB : Views) pre b rest :
  Forall (fun b => continues b = true) pre ->
  continues b = false ->
  (length pre <= 3)%nat ->
  fst (jsDecodeV4 AB (pre ++ b :: rest)) = Returned (leb128 (pre ++ [b])) /\
  0 <= leb128 (pre ++ [b]) < 2 ^ 28.
Proof.
  intros Hpre Hb Hle.
  assert (Hlen : (0 + length (pre ++ [b]) <= 4)%nat)
    by (rewrite length_app; cbn [length]; lia).
  pose proof (leb128_range (pre ++ [b])) as Hr.
  assert (Hpow : 2 ^ (7 * Z.of_nat (length (pre ++ [b]))) <= 2 ^ 28)
    by (apply Z.pow_le_mono_r; lia).
  split; [| lia].
  unfold jsDecodeV4. cbv zeta.
  rewrite decode_with_terminal by (assumption || lia).
  assert (Hp := pack_low_value (pre ++ [b]) 0 0 (U64_set 0 AB) Hlen).
  change (7 * Z.of_nat 0) with 0 in Hp. rewrite Z.pow_0_r in Hp.
  rewrite Hp by lia. cbv zeta.
  rewrite Number_ltb_small by exact Hle.
  unfold U32_set. change (0 =? 0) with true. cbv iota.
  cbn [fst]. unfold U64_get. cbn [lane0 lane1 U64_set].
  unfold JS.ToUint32. rewrite Z.mod_small by lia.
  change (0 / 2 ^ 32 mod 2 ^ 32) with 0. f_equal. lia.
Qed.

(** X15. For an encoding of five to ten bytes (terminal byte at index
    [4 <= i <= 9]) [jsDecodeV4] returns the two lanes side by side: the
    low lane is the low 32 bits of the number the first five bytes stand
    for, and the high lane is bits 3..5 of the fifth byte below eight
    times the number the bytes after the fifth stand for, cut to 32
    bits. *)
Theorem jsDecodeV4_long_value (AB : Views) (input : list byte) (i : nat) :
  terminal_index input = Some i -> (4 <= i <= 9)%nat ->
  fst (jsDecodeV4 AB input) =
  Returned
    (leb128 (firstn 5 input) mod 2 ^ 32 +
     2 ^ 32 * ((Z.land (Z.shiftr (u8 (nth 4 input x00)) 3) 0x07 +
                8 * leb128 (skipn 5 (firstn (S i) input))) mod 2 ^ 32)).
Proof.
  intros Hi Hle.
  destruct (terminal_index_split _ _ Hi) as (pre & b & rest & -> & <- & Hpre & Hb).
  assert (Hlen : length (pre ++ [b]) = S (length pre))
    by (rewrite length_app; cbn [length]; lia).
  destruct (pre ++ [b]) as [| b0 [| b1 [| b2 [| b3 [| b4 tail]]]]] eqn:Hl;
    cbn [length] in Hlen; try lia.
  rewrite (long_lanes AB pre b rest b0 b1 b2 b3 b4 tail Hpre Hb Hl) by lia.
  rewrite firstn_terminal.
  replace (pre ++ b :: rest) with ((pre ++ [b]) ++ rest)
    by (rewrite <- app_assoc; reflexivity).
  rewrite Hl. reflexivity.
Qed.

Lemma jsDecodeV4_long_value_witness :
  fst (jsDecodeV4 fresh [x80; x80; x80; x80; x70; x55]) =
  Returned
    (leb128 (firstn 5 [x80; x80; x80; x80; x70; x55]) mod 2 ^ 32 +
     2 ^ 32 * ((Z.land (Z.shiftr
                          (u8 (nth 4 [x80; x80; x80; x80; x70; x55] x00)) 3)
                       0x07 +
                8 * leb128 (skipn 5 (firstn 5 [x80; x80; x80; x80; x70; x55])))
               mod 2 ^ 32)).
Proof.
  apply (jsDecodeV4_long_value fresh [x80; x80; x80; x80; x70; x55] 4).
  - reflexivity.
  - lia.
Defined.

(** X16. For an encoding of five to ten bytes, [jsDecodeV4] returns the
    number the encoding stands for (modulo [2 ^ 64]) exactly when bits
    3..5 of the fifth byte equal its bits 4..6. *)
Theorem jsDecodeV4_long_correct_iff (AB : Views) (input : list byte) (i : nat) :
  terminal_index input = Some i -> (4 <= i <= 9)%nat ->
  (fst (jsDecodeV4 AB input) =
     Returned (leb128 (firstn (S i) input) mod 2 ^ 64) <->
   Z.land (Z.shiftr (u8 (nth 4 input x00)) 3) 0x07 =
   Z.land (Z.shiftr (u8 (nth 4 input x00)) 4) 0x07).
Proof.
  intros Hi Hle.
  destruct (terminal_index_split _ _ Hi) as (pre & b & rest & -> & <- & Hpre & Hb).
  assert (Hlen : length (pre ++ [b]) = S (length pre))
    by (rewrite length_app; cbn [length]; lia).
  destruct (pre ++ [b]) as [| b0 [| b1 [| b2 [| b3 [| b4 tail]]]]] eqn:Hl;
    cbn [length] in Hlen; try lia.
  assert (Hfifth : nth 4 (pre ++ b :: rest) x00 = b4).
  { replace (pre ++ b :: rest) with ((pre ++ [b]) ++ rest)
      by (rewrite <- app_assoc; reflexivity).
    rewrite Hl. reflexivity. }
  rewrite Hfifth, firstn_terminal.
  apply (long_correct AB pre b rest b0 b1 b2 b3 b4 tail Hpre Hb Hl). lia.
Qed.

Lemma jsDecodeV4_long_correct_iff_witness :
  fst (jsDecodeV4 fresh [xff; xff; xff; xff; x7f; x01]) =
    Returned (leb128 (firstn 5 [xff; xff; xff; xff; x7f; x01]) mod 2 ^ 64) <->
  Z.land (Z.shiftr (u8 (nth 4 [xff; xff; xff; xff; x7f; x01] x00)) 3) 0x07 =
  Z.land (Z.shiftr (u8 (nth 4 [xff; xff; xff; xff; x7f; x01] x00)) 4) 0x07.
Proof.
  apply (jsDecodeV4_long_correct_iff fresh [xff; xff; xff; xff; x7f; x01] 4).
  - reflexivity.
  - lia.
Defined.

(** X17. On every input the reference decoder [bigintDecode] accepts,
    with value [v] and count [n], the fast decoder [jsDecodeV4] returns
    [v] modulo [2 ^ 64] exactly when the encoding has at most four bytes
    or bits 3..5 of its fifth byte equal bits 4..6 of that byte. *)
Theorem jsDecodeV4_agrees_with_bigintDecode
        (AB : Views) (input : list byte) (v : Z) (n : nat) :
  bigintDecode input = Some (Returned (v, n)) ->
  (fst (jsDecodeV4 AB input) = Returned (v mod 2 ^ 64) <->
   (n <= 4)%nat \/
   Z.land (Z.shiftr (u8 (nth 4 input x00)) 3) 0x07 =
   Z.land (Z.shiftr (u8 (nth 4 input x00)) 4) 0x07).
Proof.
  intros H.
  destruct (terminal_cases input)
    as [(pre & b & rest & -> & Hpre & Hb & Hle) | [_ Hbeyond]].
  - rewrite (bigintDecode_split pre b rest Hpre Hb Hle) in H.
    assert (Hv : v = leb128 (pre ++ [b])) by congruence.
    assert (Hn : n = S (length pre)) by congruence.
    subst v n. clear H.
    destruct (Nat.le_gt_cases (length pre) 3) as [Hshort | Hlong].
    + destruct (short_value AB pre b rest Hpre Hb Hshort) as [Hval Hrange].
      rewrite Z.mod_small by lia.
      split; [intros _; left; lia | intros _; exact Hval].
    + assert (Hlen : length (pre ++ [b]) = S (length pre))
        by (rewrite length_app; cbn [length]; lia).
      destruct (pre ++ [b]) as [| b0 [| b1 [| b2 [| b3 [| b4 tail]]]]] eqn:Hl;
        cbn [length] in Hlen; try lia.
      assert (Hfifth : nth 4 (pre ++ b :: rest) x00 = b4).
      { replace (pre ++ b :: rest) with ((pre ++ [b]) ++ rest)
          by (rewrite <- app_assoc; reflexivity).
        rewrite Hl. reflexivity. }
      rewrite Hfifth, <- Hl.
      pose proof (long_correct AB pre b rest b0 b1 b2 b3 b4 tail Hpre Hb Hl)
        as Hiff.
      rewrite Hiff by lia.
      split; [intros Heq; right; exact Heq |].
      intros [Hfour | Heq]; [lia | exact Heq].
  - unfold bigintDecode, bigintDecode_fuel in H.
    destruct (bigintDecode_loop_count _ _ _ _ _ _ _ H) as (k & Hk & ->).
    pose proof (bigintDecode_loop_bound _ _ _ _ _ _ _ H) as Hbound.
    cbn [skipn] in Hk. specialize (Hbeyond k Hk). lia.
Qed.

Lemma jsDecodeV4_agrees_with_bigintDecode_witness :
  fst (jsDecodeV4 fresh [xac; x02]) = Returned (300 mod 2 ^ 64) <->
  (2 <= 4)%nat \/
  Z.land (Z.shiftr (u8 (nth 4 [xac; x02] x00)) 3) 0x07 =
  Z.land (Z.shiftr (u8 (nth 4 [xac; x02] x00)) 4) 0x07.
Proof.
  apply (jsDecodeV4_agrees_with_bigintDecode fresh [xac; x02] 300 2).
  reflexivity.
Defined.
